(** * url-short-ts: the shard selector and the mapping lifecycle of index.ts

    A shallow embedding of [src/index.ts]: the hash that picks one of the
    Redis clients for a key ([getRedisClient]) and the request handler
    ([fetch]) with its three store-facing routes, POST /shorten,
    GET /:shortId and DELETE /:shortId.  The file holds two successive
    versions of the server; they are embedded as [V1.fetch] and [V2.fetch]
    over shared definitions for the parts that are textually the same. *)

From Stdlib Require Import ZArith String Ascii Lia.
From stdpp Require Import base option list gmap strings.

Local Open Scope Z_scope.

(** ** JavaScript strings

    A JavaScript string is a sequence of UTF-16 code units; [split("")]
    yields one element per code unit and [charCodeAt(0)] of such an element
    is the unit's value, between 0 and 65535. *)

Abbreviation jsstring := (list N).

(** The code units of an ASCII literal of the source. *)
Definition js (s : string) : jsstring :=
  map N_of_ascii (list_ascii_of_string s).

Definition charCodeAt0 (char : N) : Z := Z.of_N char.

(** ** JavaScript numbers used as array indices

    The sums below stay far under 2^53 for every string an engine can hold
    (at most 2^32 units of at most 2^16 each), so the double arithmetic of
    the source is exact and [Z] models it. *)

(** [a % b]: the remainder truncated toward zero, [NaN] for a zero divisor
    (rendered as [None]). *)
Definition js_rem (a b : Z) : option Z :=
  if b =? 0 then None else Some (Z.rem a b).

(** [arr[i]]: [undefined] (rendered as [None]) outside [0 .. length-1]. *)
Definition js_index {A : Type} (arr : list A) (i : Z) : option A :=
  if i <? 0 then None else arr !! Z.to_nat i.

(** ** The shard selector (index.ts, [getRedisClient])

<<
    const hash = key.split("").reduce((acc, char) => acc + char.charCodeAt(0), 0);
    return redisClients[hash % redisClients.length];
>> *)

Definition hash (key : jsstring) : Z :=
  fold_left (fun acc char => acc + charCodeAt0 char) key 0.

(** The index expression [hash % redisClients.length]. *)
Definition getRedisIndex {C : Type} (redisClients : list C) (key : jsstring)
  : option Z :=
  js_rem (hash key) (Z.of_nat (length redisClients)).

Definition getRedisClient {C : Type} (redisClients : list C) (key : jsstring)
  : option C :=
  match getRedisIndex redisClients key with
  | Some i => js_index redisClients i
  | None => None
  end.

(** The selector as the specification words it: the sum of the codes of the
    characters of the key, reduced modulo the shard count. *)
Definition codeSum (key : jsstring) : Z :=
  foldr (fun char s => Z.of_N char + s) 0 key.

Definition select_spec (key : jsstring) (shard_count : Z) : Z :=
  codeSum key mod shard_count.

(** *** Code points versus code units

    A character outside the Basic Multilingual Plane occupies two code
    units, a high and a low surrogate.  [codePoints] decodes well-formed
    pairs, leaving everything else as it is. *)

Definition isHigh (u : N) : bool := ((0xD800 <=? u) && (u <=? 0xDBFF))%N.
Definition isLow (u : N) : bool := ((0xDC00 <=? u) && (u <=? 0xDFFF))%N.

Fixpoint codePoints (key : jsstring) : list Z :=
  match key with
  | [] => []
  | h :: rest =>
      match rest with
      | l :: rest' =>
          if isHigh h && isLow l
          then (0x10000 + (Z.of_N h - 0xD800) * 0x400 + (Z.of_N l - 0xDC00))
               :: codePoints rest'
          else Z.of_N h :: codePoints rest
      | [] => [Z.of_N h]
      end
  end.

Definition codePointSum (key : jsstring) : Z := foldr Z.add 0 (codePoints key).

Definition noSurrogate (key : jsstring) : Prop :=
  Forall (fun u => isHigh u = false) key.

(** ** Requests and responses *)

Inductive Method := GET | POST | PUT | PATCH | DELETE | HEAD | OPTIONS.

#[global] Instance Method_eq_dec : EqDecision Method.
Proof. solve_decision. Defined.

(** The JSON body of POST /shorten as the OpenAPI schema of the source types
    it: [url] a string and [ttl] an integer, either of which may be absent.
    [ttl] is the integer as the JSON text writes it; the number the handler
    holds after [req.json()] is [to_number] of it.  A url that is not a
    string and a ttl that is not an integer are outside this model. *)
Record Body := { url : option jsstring; ttl : option Z }.

(** The JavaScript number [JSON.parse] reads from an integer literal: the
    integer itself when it has at most 53 significant bits, else the nearest
    integer with 53 significant bits, ties going to the even one.  (From
    2^1024 on the number read is Infinity; the store refuses it as it
    refuses every number above its bound, see [accepts].) *)
Definition to_number (n : Z) : Z :=
  let a := Z.abs n in
  let bits := Z.log2 a + 1 in
  if bits <=? 53 then n
  else
    let shift := bits - 53 in
    let q := Z.shiftr a shift in
    let r := a - Z.shiftl q shift in
    let half := Z.shiftl 1 (shift - 1) in
    let q' := if (half <? r) || ((r =? half) && Z.odd q) then q + 1 else q in
    Z.sgn n * Z.shiftl q' shift.

(** [json] is what [await req.json()] followed by the destructuring
    [const { url: originalUrl, ttl } = body] yields: [None] when one of the
    two throws (a body that is not JSON, or the JSON value null). *)
Record Request := {
  method : Method;
  pathname : jsstring;
  json : option Body
}.

Inductive Payload :=
| Text (text : string)
| Html (page : string)
| JsonError (error : string)
| JsonMessage (message : string)
| JsonShortUrl (PORT : Z) (shortId : jsstring)
| JsonOpenApi
| Redirect (argument : jsstring).

Record Response := { status : Z; payload : Payload }.

(** [Redirect argument] is the response [Response.redirect(argument, 302)]
    builds.  Its Location header is not the argument itself but what the
    runtime makes of it when it parses and serialises it as a URL
    (https://youtube.com is sent as https://youtube.com/); that function
    belongs to the runtime and is a parameter here. *)
Definition location_header (href : jsstring -> jsstring) (r : Response)
  : option jsstring :=
  match payload r with
  | Redirect argument => Some (href argument)
  | _ => None
  end.

(** How a call can end other than by returning.  [SyntaxError] and
    [TypeError] are thrown by the runtime, [ReplyError] is the rejection of
    a client call whose server answered with an error reply (-LOADING,
    -READONLY, an expiry out of range).  [Unsettled] is no exception: it
    marks a client call that never settles because the connection is lost.
    The source registers no error listener on its clients, so the process
    ends or the command waits in the client's queue; no [catch] sees it and
    the request gets no response. *)
Inductive Exn := SyntaxError | TypeError | ReplyError | Unsettled.

(** ** The backing stores

    Each client of [redisClients] is bound at start-up to the address read
    from the environment.  The servers behind the addresses are outside the
    repository; they are modelled by the three commands the source uses,
    [SET key value EX seconds], [GET key] and [DEL key]. *)

Record Client := { address : string }.

#[global] Instance Client_eq_dec : EqDecision Client.
Proof. solve_decision. Defined.

Record Entry := { value : jsstring; EX : Z; set_at : Z }.

Record Server := { reachable : bool; db : gmap jsstring Entry }.

(** The commands as the handler gives them to a client; [seconds] is the
    number passed as the [EX] option, which the client sends as text. *)
Inductive Command :=
| SET (key value : jsstring) (seconds : Z)
| GET_ (key : jsstring)
| DEL (key : jsstring).

(** [now] counts seconds; [wire] lists the commands handed to the clients,
    oldest first; [troubled] holds the addresses of the servers that are
    connected but answer every command with an error reply (a server that
    is loading its data set, or that wants a password). *)
Record World := {
  now : Z;
  redisClients : list Client;
  servers : gmap string Server;
  troubled : gset string;
  wire : list (Client * Command)
}.

Definition with_wire (w : World) (c : Client) (cmd : Command) : World :=
  {| now := now w; redisClients := redisClients w; servers := servers w;
     troubled := troubled w; wire := wire w ++ [(c, cmd)] |}.

Definition with_server (w : World) (c : Client) (srv : Server) : World :=
  {| now := now w; redisClients := redisClients w;
     servers := <[address c := srv]> (servers w);
     troubled := troubled w; wire := wire w |}.

Definition elapse (dt : N) (w : World) : World :=
  {| now := now w + Z.of_N dt; redisClients := redisClients w;
     servers := servers w; troubled := troubled w; wire := wire w |}.

Definition with_troubled (w : World) (addresses : gset string) : World :=
  {| now := now w; redisClients := redisClients w; servers := servers w;
     troubled := addresses; wire := wire w |}.

(** An entry is visible until its expiry time. *)
Definition live (t : Z) (e : Entry) : bool := t <? set_at e + EX e.

Definition peek (t : Z) (srv : Server) (key : jsstring) : option Entry :=
  match db srv !! key with
  | Some e => if live t e then Some e else None
  | None => None
  end.

(** The server a client talks to, when it is connected. *)
Definition connected (w : World) (c : Client) : option Server :=
  match servers w !! address c with
  | Some srv => if reachable srv then Some srv else None
  | None => None
  end.

(** The server a client talks to, when it carries out the commands it is
    sent: it is connected and not troubled. *)
Definition serving (w : World) (c : Client) : option Server :=
  match connected w c with
  | Some srv => if bool_decide (address c ∈ troubled w) then None else Some srv
  | None => None
  end.

(** How a client call ends when the server does not carry it out: rejected
    with the error reply of a connected server, never settled without a
    connection. *)
Definition failure (w : World) (c : Client) : Exn :=
  match connected w c with
  | Some _ => ReplyError
  | None => Unsettled
  end.

(** The expiries a server takes for [SET key value EX seconds] at time [t]:
    positive, at most the largest 64-bit integer once in milliseconds, and
    so also when added to the clock in milliseconds. *)
Definition accepts (t seconds : Z) : bool :=
  (0 <? seconds) && (seconds <=? (2 ^ 63 - 1) / 1000)
  && (seconds * 1000 <=? 2 ^ 63 - 1 - t * 1000).

(** ** Handlers as state-and-exception computations

    A handler threads the world and either returns or throws; what it did
    to the world before throwing stays done. *)

Definition M (A : Type) : Type := World -> (Exn + A) * World.

Definition ret {A : Type} (a : A) : M A := fun w => (inr a, w).

Definition throw {A : Type} (e : Exn) : M A := fun w => (inl e, w).

Definition bind {A B : Type} (m : M A) (k : A -> M B) : M B :=
  fun w =>
    match m w with
    | (inr a, w') => k a w'
    | (inl e, w') => (inl e, w')
    end.

Definition try_catch {A : Type} (body : M A) (handler : Exn -> M A) : M A :=
  fun w =>
    match body w with
    | (inl Unsettled, w') => (inl Unsettled, w')
    | (inl e, w') => handler e w'
    | (inr a, w') => (inr a, w')
    end.

Notation "x <- m ;; k" := (bind m (fun x => k))
  (at level 100, m at next level, right associativity).

(** [await req.json()] with the destructuring that follows it. *)
Definition req_json (req : Request) : M Body :=
  match json req with
  | Some body => ret body
  | None => throw SyntaxError
  end.

(** A method call on the result of [getRedisClient]: a [TypeError] when the
    array lookup gave [undefined]. *)
Definition on_client {A : Type} (redisClient : option Client)
  (call : Client -> M A) : M A :=
  match redisClient with
  | Some c => call c
  | None => throw TypeError
  end.

(** [getRedisClient(key)], which reads the array of the module. *)
Definition the_client (key : jsstring) : M (option Client) :=
  fun w => (inr (getRedisClient (redisClients w) key), w).

(** [redisClient.set(key, value, { EX })].  The server answers an expiry
    it does not accept with an error reply. *)
Definition client_set (key value : jsstring) (ex : Z) (c : Client) : M unit :=
  fun w =>
    let w1 := with_wire w c (SET key value ex) in
    match serving w c with
    | Some srv =>
        if negb (accepts (now w) ex) then (inl ReplyError, w1)
        else (inr tt,
              with_server w1 c
                {| reachable := reachable srv;
                   db := <[key := {| value := value; EX := ex; set_at := now w |}]>
                           (db srv) |})
    | None => (inl (failure w c), w1)
    end.

(** [redisClient.get(key)]: the value, or [null] (rendered as [None]). *)
Definition client_get (key : jsstring) (c : Client) : M (option jsstring) :=
  fun w =>
    let w1 := with_wire w c (GET_ key) in
    match serving w c with
    | Some srv => (inr (value <$> peek (now w) srv key), w1)
    | None => (inl (failure w c), w1)
    end.

(** [redisClient.del(key)]: the number of keys removed. *)
Definition client_del (key : jsstring) (c : Client) : M Z :=
  fun w =>
    let w1 := with_wire w c (DEL key) in
    match serving w c with
    | Some srv =>
        match peek (now w) srv key with
        | Some _ =>
            (inr 1,
             with_server w1 c
               {| reachable := reachable srv; db := delete key (db srv) |})
        | None => (inr 0, w1)
        end
    | None => (inl (failure w c), w1)
    end.

(** ** The routes that reach a store *)

(** What the process draws from its surroundings for one request: the port
    it listens on and the identifier [nanoid(8)] returns if it is called. *)
Record Env := { PORT : Z; nanoid8 : jsstring }.

(** [ttl || 3600] on the number read from [ttl]: the right operand when
    the left one is absent or zero. *)
Definition or_default (ttl : option Z) (default : Z) : Z :=
  match ttl with
  | Some n => if to_number n =? 0 then default else to_number n
  | None => default
  end.

Definition ok (p : Payload) : Response := {| status := 200; payload := p |}.

(** [Response.json({ shortUrl: `http://localhost:${PORT}/${shortId}` })] *)
Definition short_url (env : Env) (shortId : jsstring) : Response :=
  ok (JsonShortUrl (PORT env) shortId).

Definition url_not_found : Response :=
  {| status := 404; payload := Text "URL not found" |}.

(** [Response.redirect(originalUrl, 302)] *)
Definition redirect (originalUrl : jsstring) : Response :=
  {| status := 302; payload := Redirect originalUrl |}.

Definition short_url_not_found : Response :=
  {| status := 404; payload := JsonMessage "Short URL not found" |}.

Definition short_url_deleted : Response :=
  ok (JsonMessage "Short URL deleted successfully").

(** POST /shorten.  The two versions differ in the two 400 responses only,
    which are the parameters [required] and [invalid]. *)
Definition shorten (required invalid : Response) (env : Env) (req : Request)
  : M Response :=
  try_catch
    (body <- req_json req ;;
     match url body with
     | None | Some [] => ret required
     | Some originalUrl =>
         let shortId := nanoid8 env in
         redisClient <- the_client shortId ;;
         _ <- on_client redisClient
                (client_set shortId originalUrl (or_default (ttl body) 3600)) ;;
         ret (short_url env shortId)
     end)
    (fun _ => ret invalid).

(** GET /:shortId, the same in both versions. *)
Definition resolve (shortId : jsstring) : M Response :=
  redisClient <- the_client shortId ;;
  originalUrl <- on_client redisClient (client_get shortId) ;;
  match originalUrl with
  | None | Some [] => ret url_not_found
  | Some target => ret (redirect target)
  end.

(** DELETE /:shortId, second version only. *)
Definition remove (shortId : jsstring) : M Response :=
  redisClient <- the_client shortId ;;
  deleted <- on_client redisClient (client_del shortId) ;;
  if deleted =? 0
  then ret short_url_not_found
  else ret short_url_deleted.

Definition is_method (m : Method) (req : Request) : bool :=
  bool_decide (method req = m).

Definition at_path (p : string) (req : Request) : bool :=
  bool_decide (pathname req = js p).

(** [url.pathname.length > 1] *)
Definition has_id (req : Request) : bool :=
  (1 <? length (pathname req))%nat.

(** [url.pathname.slice(1)] *)
Definition shortId_of (req : Request) : jsstring := drop 1 (pathname req).

Definition not_found : Response :=
  {| status := 404; payload := Text "Not found" |}.

(** ** First version of the server (index.ts, lines 1-140) *)
Module V1.

Definition url_required : Response :=
  {| status := 400; payload := Text "URL is required" |}.

Definition invalid_request : Response :=
  {| status := 400; payload := Text "Invalid request" |}.

Definition fetch (env : Env) (req : Request) : M Response :=
  if is_method GET req && at_path "/" req then ret (ok (Html "welcome"))
  else if is_method POST req && at_path "/shorten" req
  then shorten url_required invalid_request env req
  else if is_method GET req && has_id req then resolve (shortId_of req)
  else ret not_found.

End V1.

(** ** Second version of the server (index.ts, lines 142-373) *)
Module V2.

Definition url_required : Response :=
  {| status := 400; payload := JsonError "URL is required" |}.

Definition invalid_request : Response :=
  {| status := 400; payload := JsonError "Invalid request" |}.

Definition fetch (env : Env) (req : Request) : M Response :=
  if is_method GET req && at_path "/docs" req then ret (ok (Html "swagger"))
  else if is_method GET req && at_path "/openapi.json" req then ret (ok JsonOpenApi)
  else if is_method GET req && at_path "/" req then ret (ok (Html "root"))
  else if is_method POST req && at_path "/shorten" req
  then shorten url_required invalid_request env req
  else if is_method GET req && has_id req then resolve (shortId_of req)
  else if is_method DELETE req && has_id req then remove (shortId_of req)
  else ret not_found.

End V2.

(** Both versions, for statements that hold of either. *)
Definition versions : list (Env -> Request -> M Response) :=
  [V1.fetch; V2.fetch].

(** ** Observations on a world *)

(** The entry a client's server keeps under a key, expired or not. *)
Definition stored (w : World) (c : Client) (key : jsstring) : option Entry :=
  match servers w !! address c with
  | Some srv => db srv !! key
  | None => None
  end.

(** What a route may do to a world: keep the clients, and send nothing or
    one command. *)
Definition tame (w w' : World) : Prop :=
  redisClients w' = redisClients w /\
  now w' = now w /\
  (wire w' = wire w \/ exists c cmd, wire w' = wire w ++ [(c, cmd)]).

(** What the surroundings may do to the servers between two requests:
    outages, recoveries, evictions, writes by other programs. *)
Definition with_servers (w : World) (srvs : gmap string Server) : World :=
  {| now := now w; redisClients := redisClients w; servers := srvs;
     troubled := troubled w; wire := wire w |}.

(** The worlds a process running [fetch] can be in after a given one. *)
Inductive later (fetch : Env -> Request -> M Response) (w : World)
  : World -> Prop :=
| later_now : later fetch w w
| later_request (w' : World) (env : Env) (req : Request) :
    later fetch w w' -> later fetch w (snd (fetch env req w'))
| later_elapse (w' : World) (dt : N) :
    later fetch w w' -> later fetch w (elapse dt w')
| later_servers (w' : World) (srvs : gmap string Server) :
    later fetch w w' -> later fetch w (with_servers w' srvs)
| later_troubled (w' : World) (addresses : gset string) :
    later fetch w w' -> later fetch w (with_troubled w' addresses).

(** ** Sample data *)

Definition client1 : Client := {| address := "redis://h1:6379" |}.
Definition client2 : Client := {| address := "redis://h2:6379" |}.
Definition client3 : Client := {| address := "redis://h3:6379" |}.

Definition fresh : Server := {| reachable := true; db := ∅ |}.

Definition world0 : World :=
  {| now := 0;
     redisClients := [client1; client2; client3];
     servers := <[address client1 := fresh]>
                  (<[address client2 := fresh]>
                     (<[address client3 := fresh]> ∅));
     troubled := ∅;
     wire := [] |}.

Definition env0 : Env := {| PORT := 3000; nanoid8 := js "V1StGXR8" |}.

Definition body0 : Body :=
  {| url := Some (js "https://youtube.com"); ttl := Some 3600 |}.

Definition body_default : Body :=
  {| url := Some (js "https://x.com"); ttl := None |}.

Definition body_negative : Body :=
  {| url := Some (js "https://x.com"); ttl := Some (-5) |}.

Definition body_minute : Body :=
  {| url := Some (js "https://x.com"); ttl := Some 60 |}.

(** The world after one successful POST /shorten of [body0]. *)
Definition world1 : World :=
  with_server
    (with_wire world0 client2
       (SET (nanoid8 env0) (js "https://youtube.com") 3600))
    client2
    {| reachable := true;
       db := <[nanoid8 env0 :=
                 {| value := js "https://youtube.com"; EX := 3600; set_at := 0 |}]>
               ∅ |}.

(** [world0] with the second server out of reach. *)
Definition outage : World :=
  with_servers world0
    (<[address client2 := {| reachable := false; db := ∅ |}]> (servers world0)).

(** [world0] with the second server connected but answering every command
    with an error reply. *)
Definition loading : World := with_troubled world0 {[address client2]}.

(** A world whose second server holds an empty string under a key. *)
Definition world_empty_value : World :=
  with_server world0 client2
    {| reachable := true;
       db := <[nanoid8 env0 := {| value := []; EX := 3600; set_at := 0 |}]> ∅ |}.

Definition post_shorten (body : option Body) : Request :=
  {| method := POST; pathname := js "/shorten"; json := body |}.

Definition get_id (shortId : jsstring) : Request :=
  {| method := GET; pathname := js "/" ++ shortId; json := None |}.

Definition delete_id (shortId : jsstring) : Request :=
  {| method := DELETE; pathname := js "/" ++ shortId; json := None |}.

(** ** Further observations *)

(** The outcome of a request as a client of the server tells it apart: the
    exception, or the status of the response. *)
Definition status_of (r : Exn + Response) : Exn + Z :=
  match r with
  | inl e => inl e
  | inr resp => inr (status resp)
  end.

(** Every client of the array has a server that answers. *)
Definition answering (w : World) : Prop :=
  forall c : Client, c ∈ redisClients w -> is_Some (serving w c).

(** No server holds an empty string as a value. *)
Definition no_empty_value (w : World) : Prop :=
  forall (c : Client) (key : jsstring) (e : Entry),
    stored w c key = Some e -> value e <> [].

(** What one request may do to a world: nothing; send a command and leave
    the servers alone; or send a command that the selected server carries
    out, a SET under the generated identifier for a POST, a DEL of the
    identifier of the path for a DELETE. *)
Inductive effect (env : Env) (req : Request) (w : World) : World -> Prop :=
| effect_none : effect env req w w
| effect_sent (c : Client) (cmd : Command) :
    effect env req w (with_wire w c cmd)
| effect_set (c : Client) (srv : Server) (e : Entry) (cmd : Command) :
    method req = POST ->
    getRedisClient (redisClients w) (nanoid8 env) = Some c ->
    serving w c = Some srv ->
    value e <> [] ->
    effect env req w
      (with_server (with_wire w c cmd) c
         {| reachable := reachable srv;
            db := <[nanoid8 env := e]> (db srv) |})
| effect_del (c : Client) (srv : Server) (cmd : Command) :
    method req = DELETE ->
    getRedisClient (redisClients w) (shortId_of req) = Some c ->
    serving w c = Some srv ->
    effect env req w
      (with_server (with_wire w c cmd) c
         {| reachable := reachable srv;
            db := delete (shortId_of req) (db srv) |}).

(** The identifier a request is about: the generated one for a POST, the
    one of the path otherwise. *)
Definition subject (env : Env) (req : Request) : jsstring :=
  match method req with
  | POST => nanoid8 env
  | _ => shortId_of req
  end.

(** The command a request of a given method may send. *)
Definition command_fits (env : Env) (req : Request) (cmd : Command) : Prop :=
  match cmd with
  | SET key _ _ => method req = POST /\ key = nanoid8 env
  | GET_ key => method req = GET /\ key = shortId_of req
  | DEL key => method req = DELETE /\ key = shortId_of req
  end.

(** A history: requests, each after a lapse of time, served one after the
    other by [fetch]. *)
Fixpoint play (fetch : Env -> Request -> M Response)
  (script : list (N * Env * Request)) (w : World) : World :=
  match script with
  | [] => w
  | (dt, env, req) :: script' =>
      play fetch script' (snd (fetch env req (elapse dt w)))
  end.

(** The time a history takes. *)
Definition duration (script : list (N * Env * Request)) : Z :=
  foldr (fun step s => Z.of_N (fst (fst step)) + s) 0 script.

(** The operations of [openApiSpec] (index.ts, lines 174-253) and the
    statuses listed under [responses] for each. *)
Inductive Operation := post_shorten_op | get_shortId_op | delete_shortId_op.

Definition openApiSpec_responses (op : Operation) : list Z :=
  match op with
  | post_shorten_op => [200]
  | get_shortId_op => [302; 404]
  | delete_shortId_op => [200; 404]
  end.

(** ** Lemmas on the hash *)

Lemma fold_hash_acc (key : jsstring) (acc : Z) :
  fold_left (fun acc char => acc + charCodeAt0 char) key acc
  = acc + codeSum key.
Proof.
  revert acc. induction key as [|c key IH]; intros acc; simpl.
  - lia.
  - rewrite IH. unfold charCodeAt0. lia.
Qed.

Lemma hash_codeSum (key : jsstring) : hash key = codeSum key.
Proof. unfold hash. rewrite fold_hash_acc. lia. Qed.

Lemma codeSum_nonneg (key : jsstring) : 0 <= codeSum key.
Proof. induction key as [|c key IH]; simpl; lia. Qed.

Lemma hash_nonneg (key : jsstring) : 0 <= hash key.
Proof. rewrite hash_codeSum. apply codeSum_nonneg. Qed.

Lemma hash_app (k1 k2 : jsstring) : hash (k1 ++ k2) = hash k1 + hash k2.
Proof.
  rewrite !hash_codeSum. induction k1 as [|c k1 IH]; simpl; [lia|].
  rewrite IH. lia.
Qed.

Lemma js_rem_pos (a n : Z) :
  0 <= a -> 1 <= n -> js_rem a n = Some (a mod n).
Proof.
  intros Ha Hn. unfold js_rem.
  destruct (Z.eqb_spec n 0) as [->|_]; [lia|].
  f_equal. apply Z.rem_mod_nonneg; lia.
Qed.

(** With no client at all the index is [NaN] and the lookup [undefined]. *)
Lemma getRedisClient_empty_array {C : Type} (key : jsstring) :
  getRedisIndex (@nil C) key = None /\ getRedisClient (@nil C) key = None.
Proof. split; reflexivity. Qed.

(** *** The selector over an array of at least one client *)
Section Selector.

Context {C : Type} (redisClients : list C).
Hypothesis HN : (1 <= length redisClients)%nat.

Let shards : Z := Z.of_nat (length redisClients).

Lemma getRedisIndex_mod (key : jsstring) :
  getRedisIndex redisClients key = Some (hash key mod shards).
Proof.
  unfold getRedisIndex. apply js_rem_pos; [apply hash_nonneg | lia].
Qed.

Lemma getRedisClient_lookup (key : jsstring) :
  getRedisClient redisClients key = redisClients !! Z.to_nat (hash key mod shards).
Proof.
  unfold getRedisClient. rewrite getRedisIndex_mod. unfold js_index.
  pose proof (Z.mod_pos_bound (hash key) shards) as Hbound.
  destruct (Z.ltb_spec (hash key mod shards) 0); [subst shards; lia | done].
Qed.

End Selector.

(** *** Code units and code points *)

(** Without surrogates the code units are the code points. *)
Lemma codePoints_noSurrogate (key : jsstring) :
  noSurrogate key -> codePoints key = map Z.of_N key.
Proof.
  induction 1 as [|h rest Hh Hrest IH]; [done|].
  destruct rest as [|l rest']; [done|].
  change (codePoints (h :: l :: rest'))
    with (if isHigh h && isLow l
          then (0x10000 + (Z.of_N h - 0xD800) * 0x400 + (Z.of_N l - 0xDC00))
               :: codePoints rest'
          else Z.of_N h :: codePoints (l :: rest')).
  rewrite Hh. simpl andb. cbv iota. rewrite IH. done.
Qed.

Lemma codeSum_map (key : jsstring) :
  codeSum key = foldr Z.add 0 (map Z.of_N key).
Proof. induction key as [|c key IH]; simpl; [done|]. rewrite <- IH. done. Qed.

Lemma codePointSum_noSurrogate (key : jsstring) :
  noSurrogate key -> codePointSum key = hash key.
Proof.
  intros H. unfold codePointSum. rewrite codePoints_noSurrogate by done.
  rewrite hash_codeSum, codeSum_map. done.
Qed.

(** For the three shards of the source the sum of the code units and the
    sum of the code points select the same shard, surrogate pairs
    included. *)
Lemma codePointSum_mod3 (key : jsstring) :
  codePointSum key mod 3 = hash key mod 3.
Proof.
  rewrite hash_codeSum. unfold codePointSum.
  assert (H : forall n (k : jsstring), (length k <= n)%nat ->
            foldr Z.add 0 (codePoints k) mod 3 = codeSum k mod 3).
  { induction n as [|n IH]; intros k Hk.
    - destruct k; [done | simpl in Hk; lia].
    - destruct k as [|h [|l rest']]; [done | done |].
      change (codePoints (h :: l :: rest'))
        with (if isHigh h && isLow l
              then (0x10000 + (Z.of_N h - 0xD800) * 0x400 + (Z.of_N l - 0xDC00))
                   :: codePoints rest'
              else Z.of_N h :: codePoints (l :: rest')).
      destruct (isHigh h && isLow l).
      + cbn [foldr].
        assert (IH' : foldr Z.add 0 (codePoints rest') mod 3 = codeSum rest' mod 3)
          by (apply IH; simpl in Hk; lia).
        apply Z.cong_iff_ex in IH' as [q Hq].
        apply Z.cong_iff_ex.
        exists (q + 341 * Z.of_N h - 18871296).
        change (codeSum (h :: l :: rest'))
          with (Z.of_N h + (Z.of_N l + codeSum rest')).
        lia.
      + cbn [foldr].
        assert (IH' : foldr Z.add 0 (codePoints (l :: rest')) mod 3
                      = codeSum (l :: rest') mod 3)
          by (apply IH; simpl in Hk |- *; lia).
        change (codeSum (l :: rest')) with (Z.of_N l + codeSum rest') in IH'.
        apply Z.cong_iff_ex in IH' as [q Hq].
        apply Z.cong_iff_ex. exists q.
        change (codeSum (h :: l :: rest'))
          with (Z.of_N h + (Z.of_N l + codeSum rest')).
        lia. }
  apply (H (length key)). lia.
Qed.

(** With another number of shards a surrogate pair can tell the two sums
    apart: U+1F600 is the pair D83D DE00. *)
Example codePointSum_mod2 :
  codePointSum [0xD83D; 0xDE00]%N mod 2 = 0 /\ hash [0xD83D; 0xDE00]%N mod 2 = 1.
Proof. split; reflexivity. Qed.

(** ** The claims on the selector *)

(** C4. For every key and every array of at least one client, the index the
    selector computes is the sum of the codes of the characters of the key
    (the code units [split] and [charCodeAt] give) reduced modulo the number
    of clients; for a key without surrogates it is the sum of its code
    points reduced modulo that number. *)
Theorem getRedisIndex_is_code_sum_mod {C : Type}
  (redisClients : list C) (key : jsstring) :
  (1 <= length redisClients)%nat ->
  getRedisIndex redisClients key
  = Some (select_spec key (Z.of_nat (length redisClients))) /\
  (noSurrogate key ->
   getRedisIndex redisClients key
   = Some (codePointSum key mod Z.of_nat (length redisClients))).
Proof.
  intros HN. rewrite getRedisIndex_mod by exact HN. split.
  - unfold select_spec. rewrite hash_codeSum. reflexivity.
  - intros Hkey. rewrite codePointSum_noSurrogate by exact Hkey. reflexivity.
Qed.

Lemma getRedisIndex_is_code_sum_mod_witness :
  getRedisIndex [client1; client2; client3] (js "V1StGXR8")
  = Some (select_spec (js "V1StGXR8") 3) /\
  select_spec (js "V1StGXR8") 3 = 631 mod 3.
Proof.
  split; [|reflexivity].
  refine (proj1 (getRedisIndex_is_code_sum_mod [client1; client2; client3]
                   (js "V1StGXR8") _)).
  simpl; lia.
Defined.

(** C6. For every key and every array of at least one client, the index
    computed lies in [0, N) and the array access returns a client, the one
    at that position. *)
Theorem getRedisClient_in_bounds {C : Type}
  (redisClients : list C) (key : jsstring) :
  (1 <= length redisClients)%nat ->
  exists (i : Z) (c : C),
    getRedisIndex redisClients key = Some i /\
    0 <= i < Z.of_nat (length redisClients) /\
    getRedisClient redisClients key = Some c /\
    redisClients !! Z.to_nat i = Some c.
Proof.
  intros HN.
  set (n := Z.of_nat (length redisClients)).
  assert (Hi : 0 <= hash key mod n < n) by (apply Z.mod_pos_bound; lia).
  destruct (lookup_lt_is_Some_2 redisClients (Z.to_nat (hash key mod n)))
    as [c Hc]; [lia|].
  exists (hash key mod n), c. split; [|split; [|split]].
  - apply getRedisIndex_mod, HN.
  - exact Hi.
  - rewrite getRedisClient_lookup by exact HN. exact Hc.
  - exact Hc.
Qed.

Lemma getRedisClient_in_bounds_witness :
  exists (i : Z) (c : Client),
    getRedisIndex [client1; client2; client3] (js "V1StGXR8") = Some i /\
    0 <= i < 3 /\
    getRedisClient [client1; client2; client3] (js "V1StGXR8") = Some c /\
    [client1; client2; client3] !! Z.to_nat i = Some c.
Proof.
  apply (getRedisClient_in_bounds [client1; client2; client3] (js "V1StGXR8")).
  simpl; lia.
Defined.

(** C9. For every array of at least one client the selector sends the empty
    key to index 0, the first client. *)
Theorem getRedisIndex_empty_key {C : Type} (redisClients : list C) :
  (1 <= length redisClients)%nat ->
  getRedisIndex redisClients [] = Some 0 /\
  getRedisClient redisClients [] = redisClients !! 0%nat.
Proof.
  intros HN. split.
  - rewrite getRedisIndex_mod by exact HN.
    change (hash []) with 0. rewrite Z.mod_0_l by lia. reflexivity.
  - rewrite getRedisClient_lookup by exact HN.
    change (hash []) with 0. rewrite Z.mod_0_l by lia. reflexivity.
Qed.

Lemma getRedisIndex_empty_key_witness :
  getRedisIndex [client1; client2; client3] [] = Some 0 /\
  getRedisClient [client1; client2; client3] [] = Some client1.
Proof.
  apply (getRedisIndex_empty_key [client1; client2; client3]).
  simpl; lia.
Defined.

(** ** Running the routes *)

Lemma connected_Some (w : World) (c : Client) (srv : Server) :
  connected w c = Some srv ->
  servers w !! address c = Some srv /\ reachable srv = true.
Proof.
  unfold connected. destruct (servers w !! address c) as [s|]; [|done].
  destruct (reachable s) eqn:Hs; [|done].
  intros [= ->]. done.
Qed.

Lemma serving_connected (w : World) (c : Client) (srv : Server) :
  serving w c = Some srv ->
  connected w c = Some srv /\ address c ∉ troubled w.
Proof.
  unfold serving. destruct (connected w c) as [s|]; [|done].
  case_bool_decide; [done|]. intros [= ->]. done.
Qed.

Lemma serving_Some (w : World) (c : Client) (srv : Server) :
  serving w c = Some srv ->
  servers w !! address c = Some srv /\ reachable srv = true.
Proof.
  intros [Hcon _]%serving_connected. by apply connected_Some.
Qed.

Lemma serving_intro (w : World) (c : Client) (srv : Server) :
  servers w !! address c = Some srv -> reachable srv = true ->
  address c ∉ troubled w -> serving w c = Some srv.
Proof.
  intros Hsrv Hup Hok. unfold serving, connected. rewrite Hsrv, Hup.
  by rewrite bool_decide_eq_false_2.
Qed.

(** A call that is not carried out fails in one of two ways. *)
Lemma failure_cases (w : World) (c : Client) :
  serving w c = None ->
  (failure w c = ReplyError /\ is_Some (connected w c) /\
   address c ∈ troubled w) \/
  (failure w c = Unsettled /\ connected w c = None).
Proof.
  unfold serving, failure. destruct (connected w c) as [srv|]; [|by right].
  case_bool_decide; [|done]. left. eauto.
Qed.

Lemma serving_with_wire (w : World) (c c' : Client) (cmd : Command) :
  serving (with_wire w c' cmd) c = serving w c.
Proof. reflexivity. Qed.

Lemma serving_elapse (w : World) (c : Client) (dt : N) :
  serving (elapse dt w) c = serving w c.
Proof. reflexivity. Qed.

Lemma serving_with_server (w : World) (c : Client) (srv srv' : Server) :
  serving w c = Some srv -> reachable srv' = reachable srv ->
  serving (with_server w c srv') c = Some srv'.
Proof.
  intros Hsrv Hsame.
  destruct (serving_connected _ _ _ Hsrv) as [_ Hok].
  apply serving_Some in Hsrv as [_ Hup].
  apply serving_intro; [apply lookup_insert_eq | congruence | exact Hok].
Qed.

Lemma serving_same_address (w : World) (c c' : Client) :
  address c' = address c -> serving w c' = serving w c.
Proof. intros H. unfold serving, connected. by rewrite H. Qed.

Lemma serving_other_server (w : World) (c c' : Client) (srv : Server) :
  address c <> address c' ->
  serving (with_server w c srv) c' = serving w c'.
Proof.
  intros H. unfold serving, connected, with_server. cbn.
  by rewrite lookup_insert_ne.
Qed.

Lemma stored_with_server (w : World) (c : Client) (srv : Server) (key : jsstring) :
  stored (with_server w c srv) c key = db srv !! key.
Proof. unfold stored, with_server. simpl. by rewrite lookup_insert_eq. Qed.

(** POST /shorten on a body with a url, once a client is selected: one SET
    is sent; the answer is the short URL when the server takes it and the
    [invalid] response when the call throws. *)
Lemma shorten_run (required invalid : Response) (env : Env) (req : Request)
  (body : Body) (originalUrl : jsstring) (c : Client) (w : World) :
  json req = Some body -> url body = Some originalUrl -> originalUrl <> [] ->
  getRedisClient (redisClients w) (nanoid8 env) = Some c ->
  shorten required invalid env req w
  = let ex := or_default (ttl body) 3600 in
    let w1 := with_wire w c (SET (nanoid8 env) originalUrl ex) in
    match serving w c with
    | Some srv =>
        if accepts (now w) ex
        then (inr (short_url env (nanoid8 env)),
              with_server w1 c
                {| reachable := reachable srv;
                   db := <[nanoid8 env :=
                             {| value := originalUrl; EX := ex; set_at := now w |}]>
                           (db srv) |})
        else (inr invalid, w1)
    | None =>
        match connected w c with
        | Some _ => (inr invalid, w1)
        | None => (inl Unsettled, w1)
        end
    end.
Proof.
  intros Hjson Hurl Hne Hc.
  unfold shorten, try_catch, bind, req_json. rewrite Hjson. cbn [ret].
  rewrite Hurl. destruct originalUrl as [|u us]; [done|].
  unfold the_client. rewrite Hc. unfold on_client, client_set.
  destruct (serving w c) as [srv|].
  - destruct (accepts (now w) (or_default (ttl body) 3600)); reflexivity.
  - unfold failure. destruct (connected w c); reflexivity.
Qed.

Lemma shorten_no_url (required invalid : Response) (env : Env) (req : Request)
  (body : Body) (w : World) :
  json req = Some body -> url body = None \/ url body = Some [] ->
  shorten required invalid env req w = (inr required, w).
Proof.
  intros Hjson Hurl. unfold shorten, try_catch, bind, req_json.
  rewrite Hjson. cbn [ret]. destruct Hurl as [-> | ->]; reflexivity.
Qed.

Lemma shorten_no_body (required invalid : Response) (env : Env) (req : Request)
  (w : World) :
  json req = None -> shorten required invalid env req w = (inr invalid, w).
Proof.
  intros Hjson. unfold shorten, try_catch, bind, req_json.
  rewrite Hjson. reflexivity.
Qed.

Lemma shorten_no_client (required invalid : Response) (env : Env) (req : Request)
  (body : Body) (originalUrl : jsstring) (w : World) :
  json req = Some body -> url body = Some originalUrl -> originalUrl <> [] ->
  getRedisClient (redisClients w) (nanoid8 env) = None ->
  shorten required invalid env req w = (inr invalid, w).
Proof.
  intros Hjson Hurl Hne Hc.
  unfold shorten, try_catch, bind, req_json. rewrite Hjson. cbn [ret].
  rewrite Hurl. destruct originalUrl as [|u us]; [done|].
  unfold the_client. rewrite Hc. reflexivity.
Qed.

Lemma V1_fetch_shorten (env : Env) (body : option Body) :
  V1.fetch env (post_shorten body)
  = shorten V1.url_required V1.invalid_request env (post_shorten body).
Proof. reflexivity. Qed.

Lemma V2_fetch_shorten (env : Env) (body : option Body) :
  V2.fetch env (post_shorten body)
  = shorten V2.url_required V2.invalid_request env (post_shorten body).
Proof. reflexivity. Qed.

(** Either version answers POST /shorten through [shorten]. *)
Lemma versions_shorten (fetch : Env -> Request -> M Response) :
  In fetch versions ->
  exists required invalid : Response,
    forall (env : Env) (body : option Body),
      fetch env (post_shorten body)
      = shorten required invalid env (post_shorten body).
Proof.
  intros [<- | [<- | []]].
  - exists V1.url_required, V1.invalid_request. apply V1_fetch_shorten.
  - exists V2.url_required, V2.invalid_request. apply V2_fetch_shorten.
Qed.

(** GET /:shortId once a client is selected. *)
Lemma resolve_run (shortId : jsstring) (c : Client) (w : World) :
  getRedisClient (redisClients w) shortId = Some c ->
  resolve shortId w
  = let w1 := with_wire w c (GET_ shortId) in
    match serving w c with
    | Some srv =>
        match value <$> peek (now w) srv shortId with
        | None | Some [] => (inr url_not_found, w1)
        | Some target => (inr (redirect target), w1)
        end
    | None => (inl (failure w c), w1)
    end.
Proof.
  intros Hc. unfold resolve, bind, the_client. rewrite Hc.
  unfold on_client, client_get.
  destruct (serving w c) as [srv|]; [|reflexivity].
  destruct (value <$> peek (now w) srv shortId) as [[|u us]|]; reflexivity.
Qed.

(** DELETE /:shortId once a client is selected. *)
Lemma remove_run (shortId : jsstring) (c : Client) (w : World) :
  getRedisClient (redisClients w) shortId = Some c ->
  remove shortId w
  = let w1 := with_wire w c (DEL shortId) in
    match serving w c with
    | Some srv =>
        match peek (now w) srv shortId with
        | Some _ =>
            (inr short_url_deleted,
             with_server w1 c
               {| reachable := reachable srv; db := delete shortId (db srv) |})
        | None => (inr short_url_not_found, w1)
        end
    | None => (inl (failure w c), w1)
    end.
Proof.
  intros Hc. unfold remove, bind, the_client. rewrite Hc.
  unfold on_client, client_del.
  destruct (serving w c) as [srv|]; [|reflexivity].
  destruct (peek (now w) srv shortId); reflexivity.
Qed.

(** ** The claims on POST /shorten *)

(** Integers of at most 53 bits are read as they are written. *)
Lemma to_number_exact (n : Z) : - 2 ^ 53 <= n <= 2 ^ 53 -> to_number n = n.
Proof.
  intros Hn. destruct (Z.eq_dec (Z.abs n) (2 ^ 53)) as [Heq | Hne].
  - assert (Hcases : n = 2 ^ 53 \/ n = - 2 ^ 53) by lia.
    destruct Hcases as [-> | ->]; vm_compute; reflexivity.
  - unfold to_number.
    assert (Hbits : Z.log2 (Z.abs n) + 1 <= 53).
    { destruct (Z.eq_dec (Z.abs n) 0) as [-> | Hpos]; [simpl; lia|].
      assert (Z.log2 (Z.abs n) < 53); [|lia].
      apply Z.log2_lt_pow2; lia. }
    destruct (Z.leb_spec (Z.log2 (Z.abs n) + 1) 53); [reflexivity | lia].
Qed.

Lemma or_default_absent_or_zero (ttl : option Z) (default : Z) :
  ttl = None \/ ttl = Some 0 -> or_default ttl default = default.
Proof. intros [-> | ->]; reflexivity. Qed.

Lemma or_default_nonzero (n default : Z) :
  n <> 0 -> - 2 ^ 53 <= n <= 2 ^ 53 -> or_default (Some n) default = n.
Proof.
  intros Hn Hexact. unfold or_default. rewrite to_number_exact by exact Hexact.
  destruct (Z.eqb_spec n 0); [done | reflexivity].
Qed.

Lemma accepts_positive (t ex : Z) : accepts t ex = true -> 0 < ex.
Proof.
  unfold accepts. intros H.
  apply andb_prop in H as [H _]. apply andb_prop in H as [H _]. lia.
Qed.


(** With a clock in the next two hundred thousand years the store takes
    every positive expiry a JavaScript number holds exactly. *)
Lemma accepts_exact (t ex : Z) :
  0 <= t <= 2 ^ 43 -> 0 < ex <= 2 ^ 53 -> accepts t ex = true.
Proof.
  intros Ht Hex. unfold accepts.
  assert (Hmax : (2 ^ 63 - 1) / 1000 = 9223372036854775) by reflexivity.
  assert (H53 : 2 ^ 53 = 9007199254740992) by reflexivity.
  assert (H43 : 2 ^ 43 = 8796093022208) by reflexivity.
  assert (H63 : 2 ^ 63 = 9223372036854775808) by reflexivity.
  rewrite Hmax, H63.
  apply andb_true_intro. split; [apply andb_true_intro; split|].
  - apply Z.ltb_lt. lia.
  - apply Z.leb_le. lia.
  - apply Z.leb_le. lia.
Qed.

(** What a POST /shorten the store accepts leaves under the new identifier. *)
Lemma shorten_stores (fetch : Env -> Request -> M Response) (env : Env)
  (w : World) (body : Body) (originalUrl : jsstring) (c : Client) (srv : Server) :
  In fetch versions ->
  url body = Some originalUrl -> originalUrl <> [] ->
  getRedisClient (redisClients w) (nanoid8 env) = Some c ->
  serving w c = Some srv ->
  accepts (now w) (or_default (ttl body) 3600) = true ->
  let r := fetch env (post_shorten (Some body)) w in
  fst r = inr (short_url env (nanoid8 env)) /\
  wire (snd r)
  = wire w ++ [(c, SET (nanoid8 env) originalUrl (or_default (ttl body) 3600))] /\
  stored (snd r) c (nanoid8 env)
  = Some {| value := originalUrl; EX := or_default (ttl body) 3600;
            set_at := now w |}.
Proof.
  intros Hv Hurl Hne Hc Hsrv Hex r. subst r.
  destruct (versions_shorten fetch Hv) as (required & invalid & ->).
  rewrite (shorten_run required invalid env (post_shorten (Some body))
             body originalUrl c w) by done.
  cbv zeta. rewrite Hsrv, Hex.
  cbn [fst snd]. split; [reflexivity|]. split; [reflexivity|].
  rewrite stored_with_server. cbn [db]. apply lookup_insert_eq.
Qed.

(** What a POST /shorten the store refuses leaves: the one SET on the wire
    and a 400. *)
Lemma shorten_refused (fetch : Env -> Request -> M Response) (env : Env)
  (w : World) (body : Body) (originalUrl : jsstring) (c : Client) (srv : Server) :
  In fetch versions ->
  url body = Some originalUrl -> originalUrl <> [] ->
  getRedisClient (redisClients w) (nanoid8 env) = Some c ->
  serving w c = Some srv ->
  accepts (now w) (or_default (ttl body) 3600) = false ->
  let r := fetch env (post_shorten (Some body)) w in
  status_of (fst r) = inr 400 /\
  snd r
  = with_wire w c (SET (nanoid8 env) originalUrl (or_default (ttl body) 3600)).
Proof.
  intros Hv Hurl Hne Hc Hsrv Hex r. subst r.
  destruct Hv as [<- | [<- | []]];
    [rewrite V1_fetch_shorten | rewrite V2_fetch_shorten];
    rewrite (shorten_run _ _ env (post_shorten (Some body))
               body originalUrl c w) by done;
    cbv zeta; rewrite Hsrv, Hex; split; reflexivity.
Qed.

(** C3. A POST /shorten whose body has no url, or an empty one, is answered
    400 "URL is required" by both versions and leaves the world as it was:
    no server changes and no command is sent. *)
Theorem shorten_without_url_writes_nothing (env : Env) (w : World) (body : Body) :
  url body = None \/ url body = Some [] ->
  V1.fetch env (post_shorten (Some body)) w = (inr V1.url_required, w) /\
  V2.fetch env (post_shorten (Some body)) w = (inr V2.url_required, w).
Proof.
  intros Hurl. rewrite V1_fetch_shorten, V2_fetch_shorten.
  split; apply (shorten_no_url _ _ env (post_shorten (Some body)) body w);
    solve [reflexivity | exact Hurl].
Qed.

Lemma shorten_without_url_writes_nothing_witness :
  V1.fetch env0 (post_shorten (Some {| url := None; ttl := None |})) world0
  = (inr V1.url_required, world0) /\
  V2.fetch env0 (post_shorten (Some {| url := None; ttl := None |})) world0
  = (inr V2.url_required, world0).
Proof.
  apply (shorten_without_url_writes_nothing env0 world0
           {| url := None; ttl := None |}).
  left; reflexivity.
Defined.




(** C8. POST /shorten does not look at the slot it writes: when the server
    selected for the generated identifier already holds an entry under it,
    the request succeeds all the same, the one command sent is the SET, and
    afterwards the server maps the identifier to the new url with the new
    ttl: 3600 when the request's ttl is absent or zero, the request's ttl
    when it is a positive integer of at most 2^53. *)
Theorem shorten_overwrites (fetch : Env -> Request -> M Response) (env : Env)
  (w : World) (body : Body) (originalUrl : jsstring) (c : Client)
  (srv : Server) (old : Entry) (ex : Z) :
  In fetch versions ->
  url body = Some originalUrl -> originalUrl <> [] ->
  getRedisClient (redisClients w) (nanoid8 env) = Some c ->
  serving w c = Some srv ->
  db srv !! nanoid8 env = Some old ->
  0 <= now w <= 2 ^ 43 ->
  (ttl body = None \/ ttl body = Some 0) /\ ex = 3600 \/
  ttl body = Some ex /\ 0 < ex <= 2 ^ 53 ->
  fst (fetch env (post_shorten (Some body)) w)
  = inr (short_url env (nanoid8 env)) /\
  wire (snd (fetch env (post_shorten (Some body)) w))
  = wire w ++ [(c, SET (nanoid8 env) originalUrl ex)] /\
  stored (snd (fetch env (post_shorten (Some body)) w)) c (nanoid8 env)
  = Some {| value := originalUrl; EX := ex; set_at := now w |}.
Proof.
  intros Hv Hurl Hne Hc Hsrv _ Hclock Httl.
  assert (Hex : or_default (ttl body) 3600 = ex).
  { destruct Httl as [[Httl ->] | [Httl Hrange]].
    - apply or_default_absent_or_zero, Httl.
    - rewrite Httl. apply or_default_nonzero; lia. }
  assert (Hpos : 0 < ex <= 2 ^ 53).
  { destruct Httl as [[_ ->] | [_ Hrange]]; [|exact Hrange].
    split; [lia | vm_compute; discriminate]. }
  rewrite <- Hex.
  apply (shorten_stores fetch env w body originalUrl c srv Hv Hurl Hne Hc Hsrv).
  rewrite Hex. apply accepts_exact; assumption.
Qed.

Lemma shorten_overwrites_witness :
  stored world1 client2 (nanoid8 env0)
  = Some {| value := js "https://youtube.com"; EX := 3600; set_at := 0 |} /\
  stored (snd (V2.fetch env0 (post_shorten (Some body_minute)) world1))
    client2 (nanoid8 env0)
  = Some {| value := js "https://x.com"; EX := 60; set_at := 0 |}.
Proof.
  split; [vm_compute; reflexivity |].
  refine (proj2 (proj2 (shorten_overwrites V2.fetch env0 world1 body_minute
                          (js "https://x.com") client2
                          {| reachable := true;
                             db := <[nanoid8 env0 :=
                                       {| value := js "https://youtube.com";
                                          EX := 3600; set_at := 0 |}]> ∅ |}
                          {| value := js "https://youtube.com";
                             EX := 3600; set_at := 0 |} 60
                          _ _ _ _ _ _ _ _)));
    solve [ right; left; reflexivity | discriminate
          | vm_compute; reflexivity
          | vm_compute; split; discriminate
          | right; split; [reflexivity | split; [reflexivity | vm_compute; discriminate]] ].
Defined.

Example world1_after_shorten :
  V2.fetch env0 (post_shorten (Some body0)) world0
  = (inr (short_url env0 (nanoid8 env0)), world1).
Proof. vm_compute. reflexivity. Qed.

(** ** Routing of GET and DELETE on /:shortId *)

Lemma js_slash (k : jsstring) : js "/" ++ k = 47%N :: k.
Proof. reflexivity. Qed.

Lemma V1_fetch_get (env : Env) (shortId : jsstring) :
  shortId <> [] -> V1.fetch env (get_id shortId) = resolve shortId.
Proof.
  intros Hne. destruct shortId as [|u us]; [done|]. reflexivity.
Qed.

Lemma V2_fetch_get (env : Env) (shortId : jsstring) :
  shortId <> [] -> shortId <> js "docs" -> shortId <> js "openapi.json" ->
  V2.fetch env (get_id shortId) = resolve shortId.
Proof.
  intros Hne Hdocs Hapi. unfold V2.fetch, at_path.
  change (pathname (get_id shortId)) with (47%N :: shortId).
  rewrite (bool_decide_eq_false_2 (47%N :: shortId = js "/docs"))
    by (intros [= ?]; done).
  rewrite (bool_decide_eq_false_2 (47%N :: shortId = js "/openapi.json"))
    by (intros [= ?]; done).
  rewrite (bool_decide_eq_false_2 (47%N :: shortId = js "/"))
    by (intros [= ?]; done).
  destruct shortId as [|u us]; [done|]. reflexivity.
Qed.

Lemma V2_fetch_delete (env : Env) (shortId : jsstring) :
  shortId <> [] -> V2.fetch env (delete_id shortId) = remove shortId.
Proof.
  intros Hne. destruct shortId as [|u us]; [done|]. reflexivity.
Qed.

(** The reserved paths of the second version never reach a store. *)
Example V2_get_docs_is_not_a_lookup (w : World) :
  V2.fetch env0 (get_id (js "docs")) w = (inr (ok (Html "swagger")), w).
Proof. reflexivity. Qed.

(** ** The claims on DELETE and GET *)

Lemma peek_deleted (t : Z) (up : bool) (m : gmap jsstring Entry) (key : jsstring) :
  peek t {| reachable := up; db := delete key m |} key = None.
Proof. unfold peek. cbn [db]. by rewrite lookup_delete_eq. Qed.

(** C7. When the selected server answers, DELETE reports "deleted" exactly
    when the server held a live entry under the key and "not found" exactly
    when it held none; and once it has reported "deleted", a GET of the key
    is answered 404 "URL not found" and a further DELETE "not found",
    however much time passes in between. *)
Theorem remove_reports_presence (w : World) (shortId : jsstring)
  (c : Client) (srv : Server) :
  getRedisClient (redisClients w) shortId = Some c ->
  serving w c = Some srv ->
  (fst (remove shortId w) = inr short_url_deleted
   <-> is_Some (peek (now w) srv shortId)) /\
  (fst (remove shortId w) = inr short_url_not_found
   <-> peek (now w) srv shortId = None) /\
  (fst (remove shortId w) = inr short_url_deleted ->
   forall dt : N,
     fst (resolve shortId (elapse dt (snd (remove shortId w))))
     = inr url_not_found /\
     fst (remove shortId (elapse dt (snd (remove shortId w))))
     = inr short_url_not_found /\
     fst (remove shortId
            (snd (resolve shortId (elapse dt (snd (remove shortId w))))))
     = inr short_url_not_found).
Proof.
  intros Hc Hsrv. rewrite (remove_run shortId c w Hc). cbv zeta. rewrite Hsrv.
  destruct (peek (now w) srv shortId) as [e|] eqn:Hpeek; cbn [fst snd].
  - split; [|split].
    + split; [eauto | reflexivity].
    + split; discriminate.
    + intros _ dt.
      set (srv' := {| reachable := reachable srv; db := delete shortId (db srv) |}).
      set (w' := elapse dt (with_server (with_wire w c (DEL shortId)) c srv')).
      assert (Hc' : getRedisClient (redisClients w') shortId = Some c) by exact Hc.
      assert (Hsrv' : serving w' c = Some srv').
      { unfold w'. rewrite serving_elapse.
        apply (serving_with_server _ c srv srv'); [|reflexivity].
        rewrite serving_with_wire. exact Hsrv. }
      assert (Hgone : forall t, peek t srv' shortId = None)
        by (intros t; apply peek_deleted).
      rewrite (resolve_run shortId c w' Hc'), (remove_run shortId c w' Hc').
      cbv zeta. rewrite Hsrv', Hgone. cbn [fst snd fmap option_fmap option_map].
      split; [reflexivity|]. split; [reflexivity|].
      rewrite (remove_run shortId c (with_wire w' c (GET_ shortId)) Hc').
      cbv zeta. rewrite serving_with_wire, Hsrv'.
      change (now (with_wire w' c (GET_ shortId))) with (now w').
      rewrite Hgone. reflexivity.
  - split; [|split].
    + split; [discriminate | intros [e He]; discriminate].
    + split; reflexivity.
    + discriminate.
Qed.

Lemma remove_reports_presence_witness :
  fst (remove (nanoid8 env0) world1) = inr short_url_deleted /\
  fst (resolve (nanoid8 env0) (elapse 5 (snd (remove (nanoid8 env0) world1))))
  = inr url_not_found /\
  fst (remove (nanoid8 env0) (elapse 5 (snd (remove (nanoid8 env0) world1))))
  = inr short_url_not_found.
Proof.
  pose proof (remove_reports_presence world1 (nanoid8 env0) client2
                {| reachable := true;
                   db := <[nanoid8 env0 :=
                             {| value := js "https://youtube.com";
                                EX := 3600; set_at := 0 |}]> ∅ |}
                ltac:(reflexivity) ltac:(vm_compute; reflexivity))
    as (Hdel & _ & Hafter).
  assert (H : fst (remove (nanoid8 env0) world1) = inr short_url_deleted).
  { apply Hdel. vm_compute. eauto. }
  split; [exact H|].
  destruct (Hafter H 5%N) as (Hget & Hagain & _).
  split; [exact Hget | exact Hagain].
Defined.

(** C10. When the selected server holds a live entry whose value is the
    empty string, GET is answered 404 "URL not found", the very answer it
    gives when the server holds nothing under the key; the first version's
    [fetch] gives it for every non-empty identifier. *)
Theorem resolve_empty_value_is_not_found (env : Env) (w : World)
  (shortId : jsstring) (c : Client) (srv : Server) (e : Entry) :
  getRedisClient (redisClients w) shortId = Some c ->
  serving w c = Some srv ->
  peek (now w) srv shortId = Some e -> value e = [] ->
  fst (resolve shortId w) = inr url_not_found /\
  fst (resolve shortId w)
  = fst (resolve shortId
           (with_server w c
              {| reachable := reachable srv; db := delete shortId (db srv) |})) /\
  (shortId <> [] -> fst (V1.fetch env (get_id shortId) w) = inr url_not_found).
Proof.
  intros Hc Hsrv Hpeek Hval.
  assert (Hres : fst (resolve shortId w) = inr url_not_found).
  { rewrite (resolve_run shortId c w Hc). cbv zeta.
    rewrite Hsrv, Hpeek. cbn [fmap option_fmap option_map]. rewrite Hval.
    reflexivity. }
  split; [exact Hres|]. split.
  - rewrite Hres.
    set (srv' := {| reachable := reachable srv; db := delete shortId (db srv) |}).
    assert (Hc' : getRedisClient (redisClients (with_server w c srv')) shortId
                  = Some c) by exact Hc.
    rewrite (resolve_run shortId c (with_server w c srv') Hc'). cbv zeta.
    rewrite (serving_with_server w c srv srv' Hsrv eq_refl).
    unfold srv'. rewrite peek_deleted. reflexivity.
  - intros Hne. rewrite V1_fetch_get by exact Hne. exact Hres.
Qed.

Lemma resolve_empty_value_is_not_found_witness :
  fst (resolve (nanoid8 env0) world_empty_value) = inr url_not_found /\
  fst (V1.fetch env0 (get_id (nanoid8 env0)) world_empty_value)
  = inr url_not_found.
Proof.
  pose proof (resolve_empty_value_is_not_found env0 world_empty_value
                (nanoid8 env0) client2
                {| reachable := true;
                   db := <[nanoid8 env0 :=
                             {| value := []; EX := 3600; set_at := 0 |}]> ∅ |}
                {| value := []; EX := 3600; set_at := 0 |}
                ltac:(reflexivity) ltac:(vm_compute; reflexivity)
                ltac:(vm_compute; reflexivity) ltac:(reflexivity))
    as (Hres & _ & Hfetch).
  split; [exact Hres | apply Hfetch; discriminate].
Defined.

(** ** The life of an entry *)

Section Lifecycle.

Context (fetch : Env -> Request -> M Response) (env : Env) (w : World).
Context (body : Body) (originalUrl : jsstring) (c : Client) (srv : Server).
Hypothesis Hversion : In fetch versions.
Hypothesis Hurl : url body = Some originalUrl.
Hypothesis Hne : originalUrl <> [].
Hypothesis Hclient : getRedisClient (redisClients w) (nanoid8 env) = Some c.
Hypothesis Hserving : serving w c = Some srv.
Hypothesis Hex : accepts (now w) (or_default (ttl body) 3600) = true.

Let created : World := snd (fetch env (post_shorten (Some body)) w).

Let entry : Entry :=
  {| value := originalUrl; EX := or_default (ttl body) 3600; set_at := now w |}.

Lemma created_world :
  created
  = with_server
      (with_wire w c
         (SET (nanoid8 env) originalUrl (or_default (ttl body) 3600)))
      c {| reachable := reachable srv;
           db := <[nanoid8 env := entry]> (db srv) |}.
Proof.
  subst created.
  destruct (versions_shorten fetch Hversion) as (required & invalid & ->).
  rewrite (shorten_run required invalid env (post_shorten (Some body))
             body originalUrl c w) by done.
  cbv zeta. rewrite Hserving, Hex. reflexivity.
Qed.

Lemma created_serving (dt : N) :
  serving (elapse dt created) c
  = Some {| reachable := reachable srv;
            db := <[nanoid8 env := entry]> (db srv) |}.
Proof.
  rewrite created_world, serving_elapse.
  apply (serving_with_server _ c srv); [|reflexivity].
  rewrite serving_with_wire. exact Hserving.
Qed.

Lemma created_client (dt : N) :
  getRedisClient (redisClients (elapse dt created)) (nanoid8 env) = Some c.
Proof. rewrite created_world. exact Hclient. Qed.

(** Round trip: until the ttl has run out, GET redirects to the url that
    was shortened. *)
Lemma resolve_after_shorten (dt : N) :
  Z.of_N dt < or_default (ttl body) 3600 ->
  fst (resolve (nanoid8 env) (elapse dt created)) = inr (redirect originalUrl).
Proof.
  intros Hdt.
  rewrite (resolve_run _ c _ (created_client dt)). cbv zeta.
  rewrite created_serving. unfold peek. cbn [db].
  rewrite lookup_insert_eq.
  assert (Hlive : live (now (elapse dt created)) entry = true).
  { rewrite created_world. unfold live, entry. cbn. apply Z.ltb_lt. lia. }
  rewrite Hlive. cbn [fmap option_fmap option_map entry value].
  destruct originalUrl as [|u us]; [done | reflexivity].
Qed.

(** Expiry: once the ttl has run out, GET answers 404. *)
Lemma resolve_after_expiry (dt : N) :
  or_default (ttl body) 3600 <= Z.of_N dt ->
  fst (resolve (nanoid8 env) (elapse dt created)) = inr url_not_found.
Proof.
  intros Hdt.
  rewrite (resolve_run _ c _ (created_client dt)). cbv zeta.
  rewrite created_serving. unfold peek. cbn [db].
  rewrite lookup_insert_eq.
  assert (Hdead : live (now (elapse dt created)) entry = false).
  { rewrite created_world. unfold live, entry. cbn. apply Z.ltb_ge. lia. }
  rewrite Hdead. reflexivity.
Qed.

End Lifecycle.

(** ** The shard set never changes and a request sends at most one command *)

Lemma tame_refl (w : World) : tame w w.
Proof. unfold tame. auto. Qed.

Lemma tame_sent (w : World) (c : Client) (cmd : Command) :
  tame w (with_wire w c cmd).
Proof.
  split; [reflexivity|]. split; [reflexivity|].
  right. exists c, cmd. reflexivity.
Qed.

Lemma tame_sent_stored (w : World) (c : Client) (cmd : Command) (srv : Server) :
  tame w (with_server (with_wire w c cmd) c srv).
Proof.
  split; [reflexivity|]. split; [reflexivity|].
  right. exists c, cmd. reflexivity.
Qed.

Create HintDb tame.
#[local] Hint Resolve tame_refl tame_sent tame_sent_stored : tame.

Lemma shorten_tame (required invalid : Response) (env : Env) (req : Request)
  (w : World) : tame w (snd (shorten required invalid env req w)).
Proof.
  unfold shorten, try_catch, bind, req_json.
  destruct (json req) as [body|]; cbn [ret throw snd]; [|auto with tame].
  destruct (url body) as [[|u us]|]; cbn [ret snd]; [auto with tame| |auto with tame].
  unfold the_client.
  destruct (getRedisClient (redisClients w) (nanoid8 env)) as [c|];
    cbn [on_client throw ret snd]; [|auto with tame].
  unfold client_set. destruct (serving w c);
    [|unfold failure; destruct (connected w c); cbn; auto with tame].
  destruct (accepts (now w) (or_default (ttl body) 3600)); cbn; auto with tame.
Qed.

Lemma resolve_tame (shortId : jsstring) (w : World) :
  tame w (snd (resolve shortId w)).
Proof.
  unfold resolve, bind, the_client.
  destruct (getRedisClient (redisClients w) shortId) as [c|];
    cbn [on_client throw snd]; [|auto with tame].
  unfold client_get. destruct (serving w c); [|cbn; auto with tame].
  destruct (value <$> peek (now w) s shortId) as [[|u us]|]; cbn; auto with tame.
Qed.

Lemma remove_tame (shortId : jsstring) (w : World) :
  tame w (snd (remove shortId w)).
Proof.
  unfold remove, bind, the_client.
  destruct (getRedisClient (redisClients w) shortId) as [c|];
    cbn [on_client throw snd]; [|auto with tame].
  unfold client_del. destruct (serving w c); [|cbn; auto with tame].
  destruct (peek (now w) s shortId); cbn; auto with tame.
Qed.

#[local] Hint Resolve shorten_tame resolve_tame remove_tame : tame.

Ltac route :=
  repeat match goal with
         | |- context [if ?b then _ else _] => destruct b
         end;
  cbn [ret snd]; auto with tame.

Lemma fetch_tame (fetch : Env -> Request -> M Response) (env : Env)
  (req : Request) (w : World) :
  In fetch versions -> tame w (snd (fetch env req w)).
Proof.
  intros [<- | [<- | []]]; [unfold V1.fetch | unfold V2.fetch]; route.
Qed.

Lemma later_redisClients (fetch : Env -> Request -> M Response) (w w' : World) :
  In fetch versions -> later fetch w w' -> redisClients w' = redisClients w.
Proof.
  intros Hv.
  induction 1 as [|w' env req _ IH|w' dt _ IH|w' srvs _ IH|w' addrs _ IH].
  - reflexivity.
  - destruct (fetch_tame fetch env req w' Hv) as (-> & _). exact IH.
  - exact IH.
  - exact IH.
  - exact IH.
Qed.

(** ** The claim on shard locality *)

(** C5. The index the selector computes depends on the key and on the number
    of clients only.  The array of clients stays as it is through every
    request, lapse of time and change of the servers, so in every later
    world the GET and the DELETE of an identifier are sent to the client to
    which POST /shorten sent its SET. *)
Theorem selector_pure_and_local (fetch : Env -> Request -> M Response)
  (env : Env) (w w2 : World) (body : Body) (originalUrl : jsstring) (c : Client) :
  In fetch versions ->
  url body = Some originalUrl -> originalUrl <> [] ->
  getRedisClient (redisClients w) (nanoid8 env) = Some c ->
  later fetch (snd (fetch env (post_shorten (Some body)) w)) w2 ->
  (forall (A B : Type) (cs1 : list A) (cs2 : list B) (key : jsstring),
     length cs1 = length cs2 -> getRedisIndex cs1 key = getRedisIndex cs2 key) /\
  wire (snd (fetch env (post_shorten (Some body)) w))
  = wire w ++ [(c, SET (nanoid8 env) originalUrl (or_default (ttl body) 3600))] /\
  redisClients w2 = redisClients w /\
  getRedisIndex (redisClients w2) (nanoid8 env)
  = getRedisIndex (redisClients w) (nanoid8 env) /\
  wire (snd (resolve (nanoid8 env) w2)) = wire w2 ++ [(c, GET_ (nanoid8 env))] /\
  wire (snd (remove (nanoid8 env) w2)) = wire w2 ++ [(c, DEL (nanoid8 env))].
Proof.
  intros Hv Hurl Hne Hc Hlater.
  assert (Hsame : redisClients w2 = redisClients w).
  { rewrite (later_redisClients fetch _ w2 Hv Hlater).
    destruct (fetch_tame fetch env (post_shorten (Some body)) w Hv) as (-> & _).
    reflexivity. }
  assert (Hc2 : getRedisClient (redisClients w2) (nanoid8 env) = Some c)
    by (rewrite Hsame; exact Hc).
  split; [|split; [|split; [|split; [|split]]]].
  - intros A B cs1 cs2 key Hlen. unfold getRedisIndex. rewrite Hlen. reflexivity.
  - destruct (versions_shorten fetch Hv) as (required & invalid & ->).
    rewrite (shorten_run required invalid env (post_shorten (Some body))
               body originalUrl c w) by done.
    cbv zeta. destruct (serving w c);
      [destruct (accepts (now w) (or_default (ttl body) 3600))
      |destruct (connected w c)]; reflexivity.
  - exact Hsame.
  - rewrite Hsame. reflexivity.
  - rewrite (resolve_run (nanoid8 env) c w2 Hc2). cbv zeta.
    destruct (serving w2 c) as [srv|]; [|reflexivity].
    destruct (value <$> peek (now w2) srv (nanoid8 env)) as [[|u us]|];
      reflexivity.
  - rewrite (remove_run (nanoid8 env) c w2 Hc2). cbv zeta.
    destruct (serving w2 c) as [srv|]; [|reflexivity].
    destruct (peek (now w2) srv (nanoid8 env)); reflexivity.
Qed.

Lemma selector_pure_and_local_witness :
  wire (snd (V2.fetch env0 (post_shorten (Some body0)) world0))
  = [(client2, SET (nanoid8 env0) (js "https://youtube.com") 3600)] /\
  wire (snd (resolve (nanoid8 env0) (elapse 60 world1)))
  = wire world1 ++ [(client2, GET_ (nanoid8 env0))] /\
  wire (snd (remove (nanoid8 env0) (elapse 60 world1)))
  = wire world1 ++ [(client2, DEL (nanoid8 env0))].
Proof.
  pose proof (selector_pure_and_local V2.fetch env0 world0 (elapse 60 world1)
                body0 (js "https://youtube.com") client2
                ltac:(right; left; reflexivity) ltac:(reflexivity)
                ltac:(discriminate) ltac:(reflexivity)
                ltac:(apply later_elapse;
                      rewrite world1_after_shorten; apply later_now))
    as (_ & Hset & _ & _ & Hget & Hdel).
  split; [exact Hset|]. split; [exact Hget | exact Hdel].
Defined.

(** ** Failures of the store *)

(** GET and DELETE let the failure of the client call escape the handler:
    the request ends as the call does, after the one command. *)
Lemma resolve_store_failure (shortId : jsstring) (c : Client) (w : World) :
  getRedisClient (redisClients w) shortId = Some c -> serving w c = None ->
  resolve shortId w = (inl (failure w c), with_wire w c (GET_ shortId)).
Proof.
  intros Hc Hdown. rewrite (resolve_run shortId c w Hc). cbv zeta.
  rewrite Hdown. reflexivity.
Qed.

Lemma remove_store_failure (shortId : jsstring) (c : Client) (w : World) :
  getRedisClient (redisClients w) shortId = Some c -> serving w c = None ->
  remove shortId w = (inl (failure w c), with_wire w c (DEL shortId)).
Proof.
  intros Hc Hdown. rewrite (remove_run shortId c w Hc). cbv zeta.
  rewrite Hdown. reflexivity.
Qed.

(** POST /shorten catches the error reply: after the one SET the request is
    answered with the response an unreadable body gets. *)
Lemma shorten_store_failure (required invalid : Response) (env : Env)
  (w : World) (body : Body) (originalUrl : jsstring) (c : Client) :
  url body = Some originalUrl -> originalUrl <> [] ->
  getRedisClient (redisClients w) (nanoid8 env) = Some c ->
  serving w c = None -> is_Some (connected w c) ->
  shorten required invalid env (post_shorten (Some body)) w
  = (inr invalid,
     with_wire w c
       (SET (nanoid8 env) originalUrl (or_default (ttl body) 3600))) /\
  fst (shorten required invalid env (post_shorten (Some body)) w)
  = fst (shorten required invalid env (post_shorten None) w).
Proof.
  intros Hurl Hne Hc Hdown [srv Hcon].
  rewrite (shorten_run required invalid env (post_shorten (Some body))
             body originalUrl c w) by done.
  cbv zeta. rewrite Hdown, Hcon. split; reflexivity.
Qed.

(** Without a connection nothing settles, in POST /shorten as elsewhere. *)
Lemma shorten_unsettled (required invalid : Response) (env : Env)
  (w : World) (body : Body) (originalUrl : jsstring) (c : Client) :
  url body = Some originalUrl -> originalUrl <> [] ->
  getRedisClient (redisClients w) (nanoid8 env) = Some c ->
  connected w c = None ->
  fst (shorten required invalid env (post_shorten (Some body)) w)
  = inl Unsettled.
Proof.
  intros Hurl Hne Hc Hcon.
  rewrite (shorten_run required invalid env (post_shorten (Some body))
             body originalUrl c w) by done.
  cbv zeta. unfold serving. rewrite Hcon. reflexivity.
Qed.

(** C2, on the code. When the selected server answers the command with an
    error reply, as one that is loading its data set does, a well-formed
    POST /shorten is answered 400 "Invalid request" by both versions after a
    single SET, which is the answer to a body that is not JSON; the DELETE
    of the same identifier is rejected with the reply's error after a
    single DEL. *)
Theorem shorten_store_failure_answered_as_invalid_request :
  V1.fetch env0 (post_shorten (Some body0)) loading
  = (inr V1.invalid_request,
     with_wire loading client2
       (SET (nanoid8 env0) (js "https://youtube.com") 3600)) /\
  V1.fetch env0 (post_shorten None) loading = (inr V1.invalid_request, loading) /\
  V2.fetch env0 (post_shorten (Some body0)) loading
  = (inr V2.invalid_request,
     with_wire loading client2
       (SET (nanoid8 env0) (js "https://youtube.com") 3600)) /\
  V2.fetch env0 (post_shorten None) loading = (inr V2.invalid_request, loading) /\
  V2.fetch env0 (delete_id (nanoid8 env0)) loading
  = (inl ReplyError, with_wire loading client2 (DEL (nanoid8 env0))).
Proof.
  assert (Hc : getRedisClient (redisClients loading) (nanoid8 env0) = Some client2)
    by reflexivity.
  assert (Hdown : serving loading client2 = None) by (vm_compute; reflexivity).
  assert (Hcon : is_Some (connected loading client2)) by (vm_compute; eauto).
  rewrite !V1_fetch_shorten, !V2_fetch_shorten.
  split; [|split; [|split; [|split]]].
  - apply (shorten_store_failure V1.url_required V1.invalid_request env0
             loading body0 (js "https://youtube.com") client2);
      solve [reflexivity | discriminate | exact Hc | exact Hdown | exact Hcon].
  - apply shorten_no_body. reflexivity.
  - apply (shorten_store_failure V2.url_required V2.invalid_request env0
             loading body0 (js "https://youtube.com") client2);
      solve [reflexivity | discriminate | exact Hc | exact Hdown | exact Hcon].
  - apply shorten_no_body. reflexivity.
  - rewrite (V2_fetch_delete env0 (nanoid8 env0)) by discriminate.
    rewrite (remove_store_failure _ client2 loading Hc Hdown).
    vm_compute. reflexivity.
Qed.

(** * Further properties of the code *)

(** ** The selector: what the sum cannot see *)

Lemma codeSum_Permutation (k1 k2 : jsstring) :
  Permutation k1 k2 -> codeSum k1 = codeSum k2.
Proof.
  induction 1 as [|u k1 k2 _ IH|u v k|k1 k2 k3 _ IH12 _ IH23]; cbn [codeSum foldr].
  - reflexivity.
  - fold (codeSum k1) (codeSum k2). lia.
  - lia.
  - congruence.
Qed.

(** X1. The selector does not see the order of the characters: two keys
    that are rearrangements of one another get the same index and the same
    client, whatever the array. *)
Theorem getRedisClient_rearranged {C : Type} (redisClients : list C)
  (k1 k2 : jsstring) :
  Permutation k1 k2 ->
  getRedisIndex redisClients k1 = getRedisIndex redisClients k2 /\
  getRedisClient redisClients k1 = getRedisClient redisClients k2.
Proof.
  intros Hperm.
  assert (Hidx : getRedisIndex redisClients k1 = getRedisIndex redisClients k2).
  { unfold getRedisIndex. rewrite !hash_codeSum.
    rewrite (codeSum_Permutation k1 k2 Hperm). reflexivity. }
  split; [exact Hidx|]. unfold getRedisClient. rewrite Hidx. reflexivity.
Qed.

Lemma getRedisClient_rearranged_witness :
  getRedisIndex [client1; client2; client3] (js "V1StGXR8")
  = getRedisIndex [client1; client2; client3] (js "8RXGtS1V") /\
  getRedisClient [client1; client2; client3] (js "V1StGXR8")
  = getRedisClient [client1; client2; client3] (js "8RXGtS1V").
Proof.
  apply (getRedisClient_rearranged [client1; client2; client3]
           (js "V1StGXR8") (js "8RXGtS1V")).
  change (js "8RXGtS1V") with (rev (js "V1StGXR8")).
  apply Permutation_rev.
Defined.

(** X2. The index of a concatenation is the sum of the indices of the two
    parts, reduced modulo the number of clients. *)
Theorem getRedisIndex_app {C : Type} (redisClients : list C)
  (k1 k2 : jsstring) (i1 i2 : Z) :
  getRedisIndex redisClients k1 = Some i1 ->
  getRedisIndex redisClients k2 = Some i2 ->
  getRedisIndex redisClients (k1 ++ k2)
  = Some ((i1 + i2) mod Z.of_nat (length redisClients)).
Proof.
  intros H1 H2.
  assert (HN : (1 <= length redisClients)%nat).
  { destruct redisClients; [discriminate | simpl; lia]. }
  rewrite getRedisIndex_mod in H1, H2 |- * by exact HN.
  injection H1 as <-. injection H2 as <-.
  rewrite hash_app. f_equal. apply Z.add_mod. lia.
Qed.

Lemma getRedisIndex_app_witness :
  getRedisIndex [client1; client2; client3] (js "V1St" ++ js "GXR8")
  = Some ((1 + 0) mod 3).
Proof.
  apply (getRedisIndex_app [client1; client2; client3]
           (js "V1St") (js "GXR8") 1 0); reflexivity.
Defined.

Lemma codeSum_bound (key : jsstring) :
  Forall (fun u => (u <= 0xFFFF)%N) key ->
  codeSum key <= 65535 * Z.of_nat (length key).
Proof.
  induction 1 as [|u key Hu _ IH]; cbn [codeSum foldr length]; [lia|].
  fold (codeSum key). lia.
Qed.

(** X3. For a key of at most 2^32 code units, each at most 0xFFFF, the sum
    stays under 2^53: every intermediate value of the [reduce] is an integer
    a JavaScript number holds exactly. *)
Theorem hash_exact (key : jsstring) :
  Forall (fun u => (u <= 0xFFFF)%N) key ->
  Z.of_nat (length key) <= 2 ^ 32 ->
  forall prefix rest : jsstring,
    key = prefix ++ rest -> 0 <= hash prefix < 2 ^ 53.
Proof.
  intros Hunits Hlen prefix rest ->.
  apply Forall_app in Hunits as [Hprefix _].
  rewrite length_app in Hlen.
  pose proof (hash_nonneg prefix) as Hpos.
  pose proof (codeSum_bound prefix Hprefix) as Hsum.
  rewrite <- hash_codeSum in Hsum.
  split; [exact Hpos|].
  assert (H53 : 65535 * 2 ^ 32 < 2 ^ 53) by reflexivity.
  nia.
Qed.

Lemma hash_exact_witness :
  0 <= hash (js "V1St") < 2 ^ 53.
Proof.
  apply (hash_exact (js "V1StGXR8")
           ltac:(repeat constructor; discriminate) ltac:(simpl; lia)
           (js "V1St") (js "GXR8")).
  reflexivity.
Defined.

(** ** Routing *)

Lemma is_method_true (m : Method) (req : Request) :
  method req = m -> is_method m req = true.
Proof. intros H. unfold is_method. by apply bool_decide_eq_true_2. Qed.

Lemma is_method_false (m : Method) (req : Request) :
  method req <> m -> is_method m req = false.
Proof. intros H. unfold is_method. by apply bool_decide_eq_false_2. Qed.

Lemma at_path_false (p : string) (req : Request) :
  pathname req <> js p -> at_path p req = false.
Proof. intros H. unfold at_path. by apply bool_decide_eq_false_2. Qed.

(** X4. The reserved paths never hide a generated identifier: for every
    identifier of eight characters, as [nanoid(8)] returns them, GET /id is
    the store lookup in both versions and DELETE /id the store removal in
    the second. *)
Theorem generated_ids_are_routed (env : Env) (shortId : jsstring) :
  length shortId = 8%nat ->
  V1.fetch env (get_id shortId) = resolve shortId /\
  V2.fetch env (get_id shortId) = resolve shortId /\
  V2.fetch env (delete_id shortId) = remove shortId.
Proof.
  intros Hlen.
  assert (Hne : shortId <> []) by (intros ->; discriminate).
  assert (Hdocs : shortId <> js "docs") by (intros ->; discriminate).
  assert (Hapi : shortId <> js "openapi.json") by (intros ->; discriminate).
  split; [|split].
  - apply V1_fetch_get, Hne.
  - apply V2_fetch_get; assumption.
  - apply V2_fetch_delete, Hne.
Qed.

Lemma generated_ids_are_routed_witness :
  V1.fetch env0 (get_id (js "V1StGXR8")) = resolve (js "V1StGXR8") /\
  V2.fetch env0 (get_id (js "V1StGXR8")) = resolve (js "V1StGXR8") /\
  V2.fetch env0 (delete_id (js "V1StGXR8")) = remove (js "V1StGXR8").
Proof.
  apply (generated_ids_are_routed env0 (js "V1StGXR8")). reflexivity.
Defined.

(** X5. What no route takes is answered 404 "Not found" and touches
    nothing.  In the first version that is every request that is neither a
    GET nor the POST of /shorten, DELETE included; in the second version a
    DELETE is among them only when its path has no identifier. *)
Theorem unrouted_requests_not_found (env : Env) (req : Request) (w : World) :
  method req <> GET ->
  method req <> POST \/ pathname req <> js "/shorten" ->
  V1.fetch env req w = (inr not_found, w) /\
  (method req <> DELETE \/ (length (pathname req) <= 1)%nat ->
   V2.fetch env req w = (inr not_found, w)).
Proof.
  intros Hget Hpost.
  assert (Hshorten : is_method POST req && at_path "/shorten" req = false).
  { destruct Hpost as [H | H].
    - rewrite (is_method_false POST req H). reflexivity.
    - rewrite (at_path_false "/shorten" req H). apply andb_false_r. }
  split.
  - unfold V1.fetch. rewrite (is_method_false GET req Hget), Hshorten.
    reflexivity.
  - intros Hdel. unfold V2.fetch.
    rewrite (is_method_false GET req Hget), Hshorten. cbn [andb].
    assert (Hnodel : is_method DELETE req && has_id req = false).
    { destruct Hdel as [H | H].
      - rewrite (is_method_false DELETE req H). reflexivity.
      - unfold has_id. apply andb_false_iff. right. apply Nat.ltb_ge. exact H. }
    rewrite Hnodel. reflexivity.
Qed.

Lemma unrouted_requests_not_found_witness :
  V1.fetch env0 (delete_id (nanoid8 env0)) world1 = (inr not_found, world1) /\
  V2.fetch env0 (delete_id []) world1 = (inr not_found, world1).
Proof.
  split.
  - refine (proj1 (unrouted_requests_not_found env0
                     (delete_id (nanoid8 env0)) world1 _ _));
      [discriminate | left; discriminate].
  - refine (proj2 (unrouted_requests_not_found env0 (delete_id []) world1 _ _) _);
      [discriminate | left; discriminate | right; simpl; lia].
Defined.

Lemma shorten_payload_blind (r1 i1 r2 i2 : Response) (env : Env)
  (req : Request) (w : World) :
  status r1 = status r2 -> status i1 = status i2 ->
  snd (shorten r1 i1 env req w) = snd (shorten r2 i2 env req w) /\
  status_of (fst (shorten r1 i1 env req w))
  = status_of (fst (shorten r2 i2 env req w)).
Proof.
  intros Hr Hi. unfold shorten, try_catch, bind, req_json.
  destruct (json req) as [body|]; cbn [ret throw fst snd status_of];
    [|split; [reflexivity | by rewrite Hi]].
  destruct (url body) as [[|u us]|]; cbn [ret fst snd status_of];
    [split; [reflexivity | by rewrite Hr] | | split; [reflexivity | by rewrite Hr]].
  unfold the_client.
  destruct (getRedisClient (redisClients w) (nanoid8 env)) as [c|];
    cbn [on_client throw ret fst snd status_of];
    [|split; [reflexivity | by rewrite Hi]].
  unfold client_set. destruct (serving w c);
    [|unfold failure; destruct (connected w c); cbn;
      split; solve [reflexivity | by rewrite Hi]].
  destruct (accepts (now w) (or_default (ttl body) 3600)); cbn;
    split; solve [reflexivity | by rewrite Hi].
Qed.

(** X6. The second version extends the first: on every request that is not
    a DELETE and not a GET of /docs or /openapi.json, both versions leave
    the same world and end the same way, with the same exception or with
    responses of the same status. *)
Theorem second_version_extends_first (env : Env) (req : Request) (w : World) :
  method req <> DELETE ->
  pathname req <> js "/docs" -> pathname req <> js "/openapi.json" ->
  snd (V1.fetch env req w) = snd (V2.fetch env req w) /\
  status_of (fst (V1.fetch env req w)) = status_of (fst (V2.fetch env req w)).
Proof.
  intros Hdel Hdocs Hapi. unfold V1.fetch, V2.fetch.
  rewrite (at_path_false "/docs" req Hdocs).
  rewrite (at_path_false "/openapi.json" req Hapi).
  rewrite (is_method_false DELETE req Hdel).
  rewrite !andb_false_r. cbn [andb].
  destruct (is_method GET req && at_path "/" req); [split; reflexivity|].
  destruct (is_method POST req && at_path "/shorten" req).
  - apply shorten_payload_blind; reflexivity.
  - destruct (is_method GET req && has_id req); split; reflexivity.
Qed.

Lemma second_version_extends_first_witness :
  snd (V1.fetch env0 (post_shorten (Some body0)) world0)
  = snd (V2.fetch env0 (post_shorten (Some body0)) world0) /\
  status_of (fst (V1.fetch env0 (post_shorten (Some body0)) world0))
  = status_of (fst (V2.fetch env0 (post_shorten (Some body0)) world0)).
Proof.
  apply (second_version_extends_first env0 (post_shorten (Some body0)) world0);
    discriminate.
Defined.

(** ** One request at a time *)

Lemma is_method_inv (m : Method) (req : Request) :
  is_method m req = true -> method req = m.
Proof. unfold is_method. apply bool_decide_eq_true_1. Qed.

Lemma at_path_inv (p : string) (req : Request) :
  at_path p req = true -> pathname req = js p.
Proof. unfold at_path. apply bool_decide_eq_true_1. Qed.

Lemma has_id_inv (req : Request) :
  has_id req = true -> (1 < length (pathname req))%nat.
Proof. unfold has_id. apply Nat.ltb_lt. Qed.

(** To show something of the result of [fetch], in either version, it is
    enough to show it of the static answers and of the three routes. *)
Lemma fetch_cases (fetch : Env -> Request -> M Response) (env : Env)
  (req : Request) (w : World) (P : (Exn + Response) * World -> Prop) :
  In fetch versions ->
  (method req = GET -> forall p : Payload, P (inr (ok p), w)) ->
  P (inr not_found, w) ->
  (method req = POST -> pathname req = js "/shorten" ->
   forall required invalid : Response,
     status required = 400 -> status invalid = 400 ->
     P (shorten required invalid env req w)) ->
  (method req = GET -> (1 < length (pathname req))%nat ->
   P (resolve (shortId_of req) w)) ->
  (method req = DELETE -> (1 < length (pathname req))%nat ->
   P (remove (shortId_of req) w)) ->
  P (fetch env req w).
Proof.
  intros Hv Hstatic Hfallback Hshorten Hresolve Hremove.
  destruct Hv as [<- | [<- | []]]; [unfold V1.fetch | unfold V2.fetch];
    repeat match goal with
      | |- context [if ?a && ?b then _ else _] => destruct a eqn:?; cbn [andb]
      | |- context [if ?b then _ else _] => destruct b eqn:?
      end;
    repeat match goal with
      | H : is_method _ _ = true |- _ => apply is_method_inv in H
      | H : at_path _ _ = true |- _ => apply at_path_inv in H
      | H : has_id _ = true |- _ => apply has_id_inv in H
      end;
    solve [ apply Hstatic; assumption
          | apply Hfallback
          | apply Hshorten; solve [assumption | reflexivity]
          | apply Hresolve; assumption
          | apply Hremove; assumption
          | congruence ].
Qed.

Lemma shorten_effect (required invalid : Response) (env : Env) (req : Request)
  (w : World) :
  method req = POST ->
  effect env req w (snd (shorten required invalid env req w)).
Proof.
  intros Hpost. unfold shorten, try_catch, bind, req_json.
  destruct (json req) as [body|]; cbn [ret throw snd]; [|constructor].
  destruct (url body) as [[|u us]|] eqn:Hurl; cbn [ret snd];
    [constructor | | constructor].
  unfold the_client.
  destruct (getRedisClient (redisClients w) (nanoid8 env)) as [c|] eqn:Hc;
    cbn [on_client throw ret snd]; [|constructor].
  unfold client_set. destruct (serving w c) as [srv|] eqn:Hsrv;
    [|unfold failure; destruct (connected w c); cbn; constructor].
  destruct (accepts (now w) (or_default (ttl body) 3600)); cbn; [|constructor].
  apply (effect_set env req w c srv
           {| value := u :: us; EX := or_default (ttl body) 3600;
              set_at := now w |}); solve [assumption | discriminate].
Qed.

Lemma resolve_effect (env : Env) (req : Request) (w : World) :
  effect env req w (snd (resolve (shortId_of req) w)).
Proof.
  unfold resolve, bind, the_client.
  destruct (getRedisClient (redisClients w) (shortId_of req)) as [c|];
    cbn [on_client throw snd]; [|constructor].
  unfold client_get. destruct (serving w c) as [srv|]; [|cbn; constructor].
  destruct (value <$> peek (now w) srv (shortId_of req)) as [[|u us]|];
    cbn; constructor.
Qed.

Lemma remove_effect (env : Env) (req : Request) (w : World) :
  method req = DELETE ->
  effect env req w (snd (remove (shortId_of req) w)).
Proof.
  intros Hdel. unfold remove, bind, the_client.
  destruct (getRedisClient (redisClients w) (shortId_of req)) as [c|] eqn:Hc;
    cbn [on_client throw snd]; [|constructor].
  unfold client_del. destruct (serving w c) as [srv|] eqn:Hsrv;
    [|cbn; constructor].
  destruct (peek (now w) srv (shortId_of req)); cbn; [|constructor].
  apply (effect_del env req w c srv); assumption.
Qed.

Lemma fetch_effect (fetch : Env -> Request -> M Response) (env : Env)
  (req : Request) (w : World) :
  In fetch versions -> effect env req w (snd (fetch env req w)).
Proof.
  intros Hv.
  apply (fetch_cases fetch env req w (fun r => effect env req w (snd r)) Hv).
  - intros _ p. constructor.
  - constructor.
  - intros Hpost _ required invalid _ _. apply shorten_effect, Hpost.
  - intros _ _. apply resolve_effect.
  - intros Hdel _. apply remove_effect, Hdel.
Qed.

(** X7. A request sends at most one command, and only the one its method
    calls for: a POST a SET under the generated identifier, a GET a GET and
    a DELETE a DEL of the identifier of the path, each to the client the
    selector gives for that identifier.  Nothing is sent twice and nothing
    is sent to another client. *)
Theorem fetch_sends_one_fitting_command (fetch : Env -> Request -> M Response)
  (env : Env) (req : Request) (w : World) :
  In fetch versions ->
  wire (snd (fetch env req w)) = wire w \/
  exists (c : Client) (cmd : Command),
    wire (snd (fetch env req w)) = wire w ++ [(c, cmd)] /\
    command_fits env req cmd /\
    getRedisClient (redisClients w) (subject env req) = Some c.
Proof.
  intros Hv.
  apply (fetch_cases fetch env req w
           (fun r => wire (snd r) = wire w \/
                     exists c cmd,
                       wire (snd r) = wire w ++ [(c, cmd)] /\
                       command_fits env req cmd /\
                       getRedisClient (redisClients w) (subject env req)
                       = Some c) Hv).
  - intros _ p. left. reflexivity.
  - left. reflexivity.
  - intros Hpost _ required invalid _ _.
    unfold subject. rewrite Hpost.
    unfold shorten, try_catch, bind, req_json.
    destruct (json req) as [body|]; cbn [ret throw snd]; [|by left].
    destruct (url body) as [[|u us]|]; cbn [ret snd]; [by left| |by left].
    unfold the_client.
    destruct (getRedisClient (redisClients w) (nanoid8 env)) as [c|];
      cbn [on_client throw ret snd]; [|by left].
    right. exists c, (SET (nanoid8 env) (u :: us) (or_default (ttl body) 3600)).
    split; [|split; [split|]]; try done.
    unfold client_set. destruct (serving w c);
      [|unfold failure; destruct (connected w c); reflexivity].
    destruct (accepts (now w) (or_default (ttl body) 3600)); reflexivity.
  - intros Hget _. unfold subject. rewrite Hget.
    destruct (getRedisClient (redisClients w) (shortId_of req)) as [c|] eqn:Hc.
    + right. exists c, (GET_ (shortId_of req)).
      rewrite (resolve_run _ c w Hc). cbv zeta.
      split; [|split; [split|]]; try done.
      destruct (serving w c) as [srv|]; [|reflexivity].
      destruct (value <$> peek (now w) srv (shortId_of req)) as [[|u us]|];
        reflexivity.
    + left. unfold resolve, bind, the_client. rewrite Hc. reflexivity.
  - intros Hdel _. unfold subject. rewrite Hdel.
    destruct (getRedisClient (redisClients w) (shortId_of req)) as [c|] eqn:Hc.
    + right. exists c, (DEL (shortId_of req)).
      rewrite (remove_run _ c w Hc). cbv zeta.
      split; [|split; [split|]]; try done.
      destruct (serving w c) as [srv|]; [|reflexivity].
      destruct (peek (now w) srv (shortId_of req)); reflexivity.
    + left. unfold remove, bind, the_client. rewrite Hc. reflexivity.
Qed.

Lemma fetch_sends_one_fitting_command_witness :
  wire (snd (V2.fetch env0 (delete_id (nanoid8 env0)) world1)) = wire world1 \/
  exists (c : Client) (cmd : Command),
    wire (snd (V2.fetch env0 (delete_id (nanoid8 env0)) world1))
    = wire world1 ++ [(c, cmd)] /\
    command_fits env0 (delete_id (nanoid8 env0)) cmd /\
    getRedisClient (redisClients world1)
      (subject env0 (delete_id (nanoid8 env0))) = Some c.
Proof.
  apply (fetch_sends_one_fitting_command V2.fetch env0
           (delete_id (nanoid8 env0)) world1).
  right; left; reflexivity.
Defined.

(** X8. Reading is not writing: after a request that is neither a POST nor
    a DELETE the servers are what they were, whether the lookup found the
    key, found nothing or failed. *)
Theorem fetch_reads_without_writing (fetch : Env -> Request -> M Response)
  (env : Env) (req : Request) (w : World) :
  In fetch versions ->
  method req <> POST -> method req <> DELETE ->
  servers (snd (fetch env req w)) = servers w.
Proof.
  intros Hv Hpost Hdel.
  destruct (fetch_effect fetch env req w Hv); solve [reflexivity | contradiction].
Qed.

Lemma fetch_reads_without_writing_witness :
  servers (snd (V1.fetch env0 (get_id (nanoid8 env0)) world1)) = servers world1.
Proof.
  apply (fetch_reads_without_writing V1.fetch env0 (get_id (nanoid8 env0)) world1);
    [left; reflexivity | discriminate | discriminate].
Defined.

Lemma stored_with_wire (w : World) (c c' : Client) (cmd : Command)
  (key : jsstring) :
  stored (with_wire w c cmd) c' key = stored w c' key.
Proof. reflexivity. Qed.

Lemma stored_serving (w : World) (c : Client) (srv : Server) (key : jsstring) :
  serving w c = Some srv -> stored w c key = db srv !! key.
Proof. intros [Hsrv _]%serving_Some. unfold stored. by rewrite Hsrv. Qed.

Lemma stored_same_address (w : World) (c c' : Client) (key : jsstring) :
  address c' = address c -> stored w c' key = stored w c key.
Proof. intros H. unfold stored. by rewrite H. Qed.

Lemma stored_other_server (w : World) (c c' : Client) (srv : Server)
  (key : jsstring) :
  address c <> address c' ->
  stored (with_server w c srv) c' key = stored w c' key.
Proof.
  intros H. unfold stored, with_server. cbn. by rewrite lookup_insert_ne.
Qed.

(** X9. A request touches one slot at most: the entries under every other
    key, and the entries of every server other than the one selected for
    the identifier the request is about, are what they were. *)
Theorem fetch_frame (fetch : Env -> Request -> M Response) (env : Env)
  (req : Request) (w : World) (c' : Client) (key' : jsstring) :
  In fetch versions ->
  key' <> subject env req \/
  (forall c : Client,
     getRedisClient (redisClients w) (subject env req) = Some c ->
     address c <> address c') ->
  stored (snd (fetch env req w)) c' key' = stored w c' key'.
Proof.
  intros Hv Hother.
  destruct (fetch_effect fetch env req w Hv)
    as [|c cmd|c srv e cmd Hpost Hc Hsrv _|c srv cmd Hdel Hc Hsrv];
    [reflexivity | reflexivity | |].
  - unfold subject in Hother. rewrite Hpost in Hother.
    destruct (decide (address c = address c')) as [Heq | Hne].
    + destruct Hother as [Hkey | Haddr]; [|exfalso; by apply (Haddr c)].
      rewrite (stored_same_address _ c c' key') by done.
      rewrite (stored_same_address w c c' key') by done.
      rewrite stored_with_server. cbn [db].
      rewrite lookup_insert_ne by done.
      symmetry. apply stored_serving, Hsrv.
    + rewrite stored_other_server by exact Hne. reflexivity.
  - unfold subject in Hother. rewrite Hdel in Hother.
    destruct (decide (address c = address c')) as [Heq | Hne].
    + destruct Hother as [Hkey | Haddr]; [|exfalso; by apply (Haddr c)].
      rewrite (stored_same_address _ c c' key') by done.
      rewrite (stored_same_address w c c' key') by done.
      rewrite stored_with_server. cbn [db].
      rewrite lookup_delete_ne by done.
      symmetry. apply stored_serving, Hsrv.
    + rewrite stored_other_server by exact Hne. reflexivity.
Qed.

Lemma fetch_frame_witness :
  stored (snd (V2.fetch env0 (delete_id (js "8RXGtS1V")) world1))
    client2 (nanoid8 env0)
  = stored world1 client2 (nanoid8 env0).
Proof.
  apply (fetch_frame V2.fetch env0 (delete_id (js "8RXGtS1V")) world1
           client2 (nanoid8 env0)).
  - right; left; reflexivity.
  - left. discriminate.
Defined.

(** ** How a request can end *)

Lemma getRedisClient_elem {C : Type} (cs : list C) (key : jsstring) (c : C) :
  getRedisClient cs key = Some c -> c ∈ cs.
Proof.
  unfold getRedisClient, js_index.
  destruct (getRedisIndex cs key) as [i|]; [|discriminate].
  destruct (i <? 0); [discriminate|]. apply list_elem_of_lookup_2.
Qed.

Lemma getRedisClient_nonempty {C : Type} (cs : list C) (key : jsstring) :
  cs <> [] -> is_Some (getRedisClient cs key).
Proof.
  intros Hne.
  assert (HN : (1 <= length cs)%nat) by (destruct cs; [done | simpl; lia]).
  rewrite (getRedisClient_lookup cs HN). apply lookup_lt_is_Some_2.
  pose proof (Z.mod_pos_bound (hash key) (Z.of_nat (length cs))). lia.
Qed.

Lemma getRedisClient_none {C : Type} (cs : list C) (key : jsstring) :
  getRedisClient cs key = None -> cs = [].
Proof.
  intros Hnone. destruct cs as [|c cs]; [reflexivity|].
  destruct (getRedisClient_nonempty (c :: cs) key) as [c' Hc']; [done|].
  congruence.
Qed.

(** POST /shorten ends in one of three responses, or does not settle; it
    never ends in an exception. *)
Lemma shorten_outcome (required invalid : Response) (env : Env) (req : Request)
  (w : World) :
  (fst (shorten required invalid env req w) = inl Unsettled /\
   exists c : Client,
     getRedisClient (redisClients w) (nanoid8 env) = Some c /\
     connected w c = None) \/
  exists r : Response,
    fst (shorten required invalid env req w) = inr r /\
    (r = required \/ r = invalid \/ r = short_url env (nanoid8 env)).
Proof.
  unfold shorten, try_catch, bind, req_json.
  destruct (json req) as [body|]; cbn [ret throw fst]; [|eauto 6].
  destruct (url body) as [[|u us]|]; cbn [ret fst]; [eauto 6| |eauto 6].
  unfold the_client.
  destruct (getRedisClient (redisClients w) (nanoid8 env)) as [c|];
    cbn [on_client throw ret fst]; [|eauto 6].
  unfold client_set. destruct (serving w c).
  - destruct (accepts (now w) (or_default (ttl body) 3600)); cbn; eauto 6.
  - unfold failure. destruct (connected w c) eqn:Hcon; cbn; eauto 6.
Qed.

Lemma fetch_exception (fetch : Env -> Request -> M Response)
  (env : Env) (req : Request) (w : World) (e : Exn) :
  In fetch versions ->
  fst (fetch env req w) = inl e ->
  (e = Unsettled /\
   exists c : Client,
     getRedisClient (redisClients w) (subject env req) = Some c /\
     connected w c = None) \/
  ((method req = GET \/ method req = DELETE) /\
   match getRedisClient (redisClients w) (shortId_of req) with
   | Some c =>
       e = ReplyError /\ is_Some (connected w c) /\ address c ∈ troubled w
   | None => redisClients w = [] /\ e = TypeError
   end).
Proof.
  intros Hv.
  apply (fetch_cases fetch env req w
           (fun r => fst r = inl e ->
              (e = Unsettled /\
               exists c : Client,
                 getRedisClient (redisClients w) (subject env req) = Some c /\
                 connected w c = None) \/
              ((method req = GET \/ method req = DELETE) /\
               match getRedisClient (redisClients w) (shortId_of req) with
               | Some c =>
                   e = ReplyError /\ is_Some (connected w c) /\
                   address c ∈ troubled w
               | None => redisClients w = [] /\ e = TypeError
               end)) Hv).
  - intros _ p. discriminate.
  - discriminate.
  - intros Hpost _ required invalid _ _ Hthrow.
    unfold subject. rewrite Hpost.
    destruct (shorten_outcome required invalid env req w)
      as [[Hun Hc] | (r & Hr & _)]; [|congruence].
    left. split; [congruence | exact Hc].
  - intros Hget _ H. unfold subject. rewrite Hget.
    destruct (getRedisClient (redisClients w) (shortId_of req)) as [c|] eqn:Hc.
    + rewrite (resolve_run _ c w Hc) in H. cbv zeta in H.
      destruct (serving w c) as [srv|] eqn:Hsrv.
      * destruct (value <$> peek (now w) srv (shortId_of req)) as [[|u us]|];
          discriminate.
      * injection H as <-.
        destruct (failure_cases w c Hsrv) as [(-> & Hcon & Htr) | (-> & Hcon)];
          [right; auto | left; eauto].
    + right. split; [by left|].
      unfold resolve, bind, the_client in H. rewrite Hc in H.
      injection H as <-. split; [|reflexivity].
      by apply (getRedisClient_none _ (shortId_of req)).
  - intros Hdel _ H. unfold subject. rewrite Hdel.
    destruct (getRedisClient (redisClients w) (shortId_of req)) as [c|] eqn:Hc.
    + rewrite (remove_run _ c w Hc) in H. cbv zeta in H.
      destruct (serving w c) as [srv|] eqn:Hsrv.
      * destruct (peek (now w) srv (shortId_of req)); discriminate.
      * injection H as <-.
        destruct (failure_cases w c Hsrv) as [(-> & Hcon & Htr) | (-> & Hcon)];
          [right; auto | left; eauto].
    + right. split; [by right|].
      unfold remove, bind, the_client in H. rewrite Hc in H.
      injection H as <-. split; [|reflexivity].
      by apply (getRedisClient_none _ (shortId_of req)).
Qed.

(** X10. A request ends without a response in three cases only.  The
    client call does not settle, because the server selected for the
    request's identifier is not connected.  Or the request is a GET or a
    DELETE of an identifier and the call is rejected: with the error of the
    reply when the selected server is connected and answers with an error
    reply, with a TypeError when the array holds no client.  A POST is never
    rejected: its try/catch turns every exception into a response. *)
Theorem fetch_throws_only_if (fetch : Env -> Request -> M Response)
  (env : Env) (req : Request) (w : World) (e : Exn) :
  In fetch versions ->
  fst (fetch env req w) = inl e ->
  (e = Unsettled /\
   exists c : Client,
     getRedisClient (redisClients w) (subject env req) = Some c /\
     connected w c = None) \/
  (method req <> POST /\
   (method req = GET \/ method req = DELETE) /\
   match getRedisClient (redisClients w) (shortId_of req) with
   | Some c =>
       e = ReplyError /\ is_Some (connected w c) /\ address c ∈ troubled w
   | None => redisClients w = [] /\ e = TypeError
   end).
Proof.
  intros Hv Hthrow.
  destruct (fetch_exception fetch env req w e Hv Hthrow)
    as [Hlost | [Hmethod Hwhy]]; [left; exact Hlost | right].
  split; [|split; [exact Hmethod | exact Hwhy]].
  destruct Hmethod as [-> | ->]; discriminate.
Qed.

Lemma fetch_throws_only_if_witness :
  (ReplyError = Unsettled /\
   exists c : Client,
     getRedisClient (redisClients loading)
       (subject env0 (get_id (nanoid8 env0))) = Some c /\
     connected loading c = None) \/
  (method (get_id (nanoid8 env0)) <> POST /\
   (method (get_id (nanoid8 env0)) = GET \/
    method (get_id (nanoid8 env0)) = DELETE) /\
   match getRedisClient (redisClients loading)
           (shortId_of (get_id (nanoid8 env0))) with
   | Some c =>
       ReplyError = ReplyError /\ is_Some (connected loading c) /\
       address c ∈ troubled loading
   | None => redisClients loading = [] /\ ReplyError = TypeError
   end).
Proof.
  apply (fetch_throws_only_if V1.fetch env0 (get_id (nanoid8 env0)) loading
           ReplyError).
  - left; reflexivity.
  - vm_compute. reflexivity.
Defined.

(** X11. The responses carry four statuses only, 200, 302, 400 and 404; a
    302 answers a GET and nothing else, and a 400 the POST of /shorten and
    nothing else. *)
Theorem fetch_statuses (fetch : Env -> Request -> M Response) (env : Env)
  (req : Request) (w : World) (r : Response) :
  In fetch versions ->
  fst (fetch env req w) = inr r ->
  (status r = 200 \/ status r = 302 \/ status r = 400 \/ status r = 404) /\
  (status r = 302 -> method req = GET) /\
  (status r = 400 -> method req = POST /\ pathname req = js "/shorten").
Proof.
  intros Hv.
  apply (fetch_cases fetch env req w
           (fun res => fst res = inr r ->
              (status r = 200 \/ status r = 302 \/ status r = 400 \/ status r = 404) /\
              (status r = 302 -> method req = GET) /\
              (status r = 400 -> method req = POST /\ pathname req = js "/shorten"))
           Hv).
  - intros _ p [= <-]. cbn. split; [auto|]. split; discriminate.
  - intros [= <-]. cbn. split; [auto|]. split; discriminate.
  - intros Hpost Hpath required invalid Hrq Hiv Hres.
    destruct (shorten_outcome required invalid env req w)
      as [[Hun _] | (r' & Hr' & [-> | [-> | ->]])]; [congruence | | |];
      rewrite Hr' in Hres; injection Hres as <-.
    + rewrite Hrq. split; [auto|]. split; [discriminate | done].
    + rewrite Hiv. split; [auto|]. split; [discriminate | done].
    + cbn. split; [auto|]. split; discriminate.
  - intros Hget _ Hres. unfold resolve, bind, the_client in Hres.
    destruct (getRedisClient (redisClients w) (shortId_of req)) as [c|];
      cbn [on_client throw fst] in Hres; [|discriminate].
    unfold client_get in Hres.
    destruct (serving w c) as [srv|]; [|discriminate].
    destruct (value <$> peek (now w) srv (shortId_of req)) as [[|u us]|];
      injection Hres as <-; cbn; (split; [auto|]); split;
      solve [done | discriminate].
  - intros Hdel _ Hres. unfold remove, bind, the_client in Hres.
    destruct (getRedisClient (redisClients w) (shortId_of req)) as [c|];
      cbn [on_client throw fst] in Hres; [|discriminate].
    unfold client_del in Hres.
    destruct (serving w c) as [srv|]; [|discriminate].
    destruct (peek (now w) srv (shortId_of req));
      injection Hres as <-; cbn; (split; [auto|]); split; discriminate.
Qed.

Lemma fetch_statuses_witness :
  (status V2.invalid_request = 200 \/ status V2.invalid_request = 302 \/
   status V2.invalid_request = 400 \/ status V2.invalid_request = 404) /\
  (status V2.invalid_request = 302 ->
   method (post_shorten (Some body_negative)) = GET) /\
  (status V2.invalid_request = 400 ->
   method (post_shorten (Some body_negative)) = POST /\
   pathname (post_shorten (Some body_negative)) = js "/shorten").
Proof.
  apply (fetch_statuses V2.fetch env0 (post_shorten (Some body_negative))
           world0 V2.invalid_request).
  - right; left; reflexivity.
  - vm_compute. reflexivity.
Defined.

(** ** What histories keep *)

Lemma effect_redisClients (env : Env) (req : Request) (w w' : World) :
  effect env req w w' -> redisClients w' = redisClients w.
Proof. destruct 1; reflexivity. Qed.

Lemma effect_serving (env : Env) (req : Request) (w w' : World) (c' : Client) :
  effect env req w w' -> is_Some (serving w c') -> is_Some (serving w' c').
Proof.
  destruct 1 as [|c cmd|c srv e cmd _ _ Hsrv _|c srv cmd _ _ Hsrv];
    intros Hup; try exact Hup.
  all: destruct (decide (address c = address c')) as [Heq | Hne].
  all: try (rewrite serving_other_server by exact Hne; exact Hup).
  all: rewrite (serving_same_address _ c c') by (symmetry; exact Heq).
  all: erewrite serving_with_server;
         [eauto | rewrite serving_with_wire; exact Hsrv | reflexivity].
Qed.

Lemma effect_no_empty_value (env : Env) (req : Request) (w w' : World) :
  effect env req w w' -> no_empty_value w -> no_empty_value w'.
Proof.
  destruct 1 as [|c cmd|c srv e cmd _ _ Hsrv Hval|c srv cmd _ _ Hsrv];
    intros Hinv c' key e'; try apply Hinv.
  - destruct (decide (address c = address c')) as [Heq | Hne].
    + rewrite (stored_same_address _ c c' key) by done.
      rewrite stored_with_server. cbn [db].
      destruct (decide (nanoid8 env = key)) as [<- | Hkey].
      * rewrite lookup_insert_eq. intros [= <-]. exact Hval.
      * rewrite lookup_insert_ne by exact Hkey.
        rewrite <- (stored_serving _ c srv key Hsrv). apply Hinv.
    + rewrite stored_other_server by exact Hne. apply Hinv.
  - destruct (decide (address c = address c')) as [Heq | Hne].
    + rewrite (stored_same_address _ c c' key) by done.
      rewrite stored_with_server. cbn [db].
      destruct (decide (shortId_of req = key)) as [<- | Hkey].
      * rewrite lookup_delete_eq. discriminate.
      * rewrite lookup_delete_ne by exact Hkey.
        rewrite <- (stored_serving _ c srv key Hsrv). apply Hinv.
    + rewrite stored_other_server by exact Hne. apply Hinv.
Qed.

(** X12. The service never stores an empty url: if no server holds an
    empty value, none does after any history of requests and lapses of
    time, whatever the requests are. *)
Theorem play_keeps_values_nonempty (fetch : Env -> Request -> M Response)
  (script : list (N * Env * Request)) (w : World) :
  In fetch versions ->
  no_empty_value w -> no_empty_value (play fetch script w).
Proof.
  intros Hv. revert w.
  induction script as [|[[dt env] req] script IH]; intros w Hinv; [exact Hinv|].
  cbn [play]. apply IH.
  apply (effect_no_empty_value env req (elapse dt w)).
  - apply fetch_effect, Hv.
  - exact Hinv.
Qed.

Lemma no_empty_value_world0 : no_empty_value world0.
Proof.
  intros c key e. unfold stored, world0. cbn [servers].
  destruct (decide (address c = address client1)) as [-> | H1];
    [rewrite lookup_insert_eq; cbn; by rewrite lookup_empty|].
  rewrite lookup_insert_ne by done.
  destruct (decide (address c = address client2)) as [-> | H2];
    [rewrite lookup_insert_eq; cbn; by rewrite lookup_empty|].
  rewrite lookup_insert_ne by done.
  destruct (decide (address c = address client3)) as [-> | H3];
    [rewrite lookup_insert_eq; cbn; by rewrite lookup_empty|].
  rewrite lookup_insert_ne by done. by rewrite lookup_empty.
Qed.

Lemma play_keeps_values_nonempty_witness :
  no_empty_value
    (play V2.fetch
       [(0%N, env0, post_shorten (Some body0));
        (5%N, env0, post_shorten (Some {| url := Some []; ttl := None |}));
        (5%N, env0, delete_id (nanoid8 env0))]
       world0).
Proof.
  apply (play_keeps_values_nonempty V2.fetch).
  - right; left; reflexivity.
  - exact no_empty_value_world0.
Defined.

Lemma answering_elapse (dt : N) (w : World) :
  answering w -> answering (elapse dt w).
Proof. intros H c Hc. rewrite serving_elapse. by apply H. Qed.

Lemma play_redisClients (fetch : Env -> Request -> M Response)
  (script : list (N * Env * Request)) (w : World) :
  In fetch versions -> redisClients (play fetch script w) = redisClients w.
Proof.
  intros Hv. revert w.
  induction script as [|[[dt env] req] script IH]; intros w; [reflexivity|].
  cbn [play]. rewrite IH.
  apply (effect_redisClients env req (elapse dt w)), fetch_effect, Hv.
Qed.

(** X13. While every client's server answers, every request gets a
    response: if the array is not empty and each of its clients has a
    server that answers, that stays so through any history of requests and
    lapses of time, and whatever request comes next ends in a response, not
    in an exception. *)
Theorem play_answers (fetch : Env -> Request -> M Response)
  (script : list (N * Env * Request)) (env : Env) (req : Request) (w : World) :
  In fetch versions ->
  redisClients w <> [] -> answering w ->
  answering (play fetch script w) /\
  exists r : Response, fst (fetch env req (play fetch script w)) = inr r.
Proof.
  intros Hv Hne Hup.
  assert (Hkeep : answering (play fetch script w)).
  { revert w Hne Hup.
    induction script as [|[[dt env'] req'] script IH]; intros w Hne Hup;
      [exact Hup|].
    cbn [play].
    pose proof (fetch_effect fetch env' req' (elapse dt w) Hv) as Heff.
    apply IH.
    - rewrite (effect_redisClients _ _ _ _ Heff). exact Hne.
    - intros c Hc. rewrite (effect_redisClients _ _ _ _ Heff) in Hc.
      apply (effect_serving _ _ _ _ c Heff).
      apply (answering_elapse dt w Hup c Hc). }
  split; [exact Hkeep|].
  destruct (fst (fetch env req (play fetch script w))) as [e|r] eqn:Hres;
    [|eauto].
  exfalso.
  destruct (fetch_exception fetch env req _ e Hv Hres)
    as [(_ & c & Hc & Hcon) | [_ Hwhy]].
  - destruct (Hkeep c (getRedisClient_elem _ _ c Hc)) as [srv Hsrv].
    apply serving_connected in Hsrv as [Hcon' _]. congruence.
  - destruct (getRedisClient (redisClients (play fetch script w))
                (shortId_of req)) as [c|] eqn:Hc.
    + destruct Hwhy as (_ & _ & Htroubled).
      destruct (Hkeep c (getRedisClient_elem _ _ c Hc)) as [srv Hsrv].
      apply serving_connected in Hsrv as [_ Hok]. contradiction.
    + destruct Hwhy as [Hnil _].
      rewrite (play_redisClients fetch script w Hv) in Hnil. contradiction.
Qed.

Lemma answering_world0 : answering world0.
Proof.
  intros c Hc. cbn [redisClients world0] in Hc.
  repeat (apply elem_of_cons in Hc as [-> | Hc]);
    [vm_compute; eauto .. | by apply elem_of_nil in Hc].
Qed.

Lemma play_answers_witness :
  answering (play V2.fetch [(7%N, env0, post_shorten (Some body0))] world0) /\
  exists r : Response,
    fst (V2.fetch env0 (get_id (nanoid8 env0))
           (play V2.fetch [(7%N, env0, post_shorten (Some body0))] world0))
    = inr r.
Proof.
  apply (play_answers V2.fetch [(7%N, env0, post_shorten (Some body0))]
           env0 (get_id (nanoid8 env0)) world0).
  - right; left; reflexivity.
  - discriminate.
  - exact answering_world0.
Defined.

(** ** From creation to expiry *)

Lemma versions_get (fetch : Env -> Request -> M Response) (env : Env)
  (shortId : jsstring) :
  In fetch versions -> length shortId = 8%nat ->
  fetch env (get_id shortId) = resolve shortId.
Proof.
  intros Hv Hlen.
  assert (Hne : shortId <> []) by (intros ->; discriminate).
  destruct Hv as [<- | [<- | []]].
  - apply V1_fetch_get, Hne.
  - apply V2_fetch_get; [exact Hne | intros ->; discriminate ..].
Qed.

(** A POST /shorten that is answered with the short URL was accepted by the
    store. *)
Lemma accepted_accepts (fetch : Env -> Request -> M Response) (env : Env)
  (w : World) (body : Body) (originalUrl : jsstring) (c : Client) (srv : Server) :
  In fetch versions ->
  url body = Some originalUrl -> originalUrl <> [] ->
  getRedisClient (redisClients w) (nanoid8 env) = Some c ->
  serving w c = Some srv ->
  fst (fetch env (post_shorten (Some body)) w)
  = inr (short_url env (nanoid8 env)) ->
  accepts (now w) (or_default (ttl body) 3600) = true.
Proof.
  intros Hv Hurl Hne Hc Hsrv Hok.
  destruct (accepts (now w) (or_default (ttl body) 3600)) eqn:Hacc;
    [reflexivity|].
  destruct (shorten_refused fetch env w body originalUrl c srv
              Hv Hurl Hne Hc Hsrv Hacc) as [Hstatus _].
  rewrite Hok in Hstatus. discriminate.
Qed.

(** X14. Round trip: when POST /shorten of a url is answered with the short
    URL, then from that moment until the ttl that was sent has run out, GET
    of the generated identifier is answered with the 302 that
    [Response.redirect] builds from the posted url: whatever the runtime's
    serialisation of URLs, the Location header is that of the posted url. *)
Theorem shorten_then_get (fetch : Env -> Request -> M Response)
  (env env' : Env) (w : World) (body : Body) (originalUrl : jsstring)
  (c : Client) (srv : Server) (dt : N) :
  In fetch versions ->
  url body = Some originalUrl -> originalUrl <> [] ->
  length (nanoid8 env) = 8%nat ->
  getRedisClient (redisClients w) (nanoid8 env) = Some c ->
  serving w c = Some srv ->
  fst (fetch env (post_shorten (Some body)) w)
  = inr (short_url env (nanoid8 env)) ->
  Z.of_N dt < or_default (ttl body) 3600 ->
  exists r : Response,
    fst (fetch env' (get_id (nanoid8 env))
           (elapse dt (snd (fetch env (post_shorten (Some body)) w))))
    = inr r /\
    status r = 302 /\
    forall href : jsstring -> jsstring,
      location_header href r = Some (href originalUrl).
Proof.
  intros Hv Hurl Hne Hlen Hc Hsrv Hok Hdt.
  pose proof (accepted_accepts fetch env w body originalUrl c srv
                Hv Hurl Hne Hc Hsrv Hok) as Hacc.
  exists (redirect originalUrl). split; [|split; reflexivity].
  rewrite (versions_get fetch env' (nanoid8 env) Hv Hlen).
  apply (resolve_after_shorten fetch env w body originalUrl c srv);
    assumption.
Qed.

Lemma shorten_then_get_witness :
  exists r : Response,
    fst (V2.fetch env0 (get_id (nanoid8 env0))
           (elapse 59 (snd (V2.fetch env0 (post_shorten (Some body_minute))
                              world0))))
    = inr r /\
    status r = 302 /\
    forall href : jsstring -> jsstring,
      location_header href r = Some (href (js "https://x.com")).
Proof.
  apply (shorten_then_get V2.fetch env0 env0 world0 body_minute
           (js "https://x.com") client2 fresh 59%N);
    solve [ right; left; reflexivity | reflexivity | discriminate
          | vm_compute; reflexivity ].
Defined.

(** X15. Expiry: once the ttl sent with a POST /shorten that was answered
    with the short URL has run out, GET of the generated identifier answers
    404 "URL not found", in both versions. *)
Theorem shorten_then_expired (fetch : Env -> Request -> M Response)
  (env env' : Env) (w : World) (body : Body) (originalUrl : jsstring)
  (c : Client) (srv : Server) (dt : N) :
  In fetch versions ->
  url body = Some originalUrl -> originalUrl <> [] ->
  length (nanoid8 env) = 8%nat ->
  getRedisClient (redisClients w) (nanoid8 env) = Some c ->
  serving w c = Some srv ->
  0 < or_default (ttl body) 3600 ->
  fst (fetch env (post_shorten (Some body)) w)
  = inr (short_url env (nanoid8 env)) ->
  or_default (ttl body) 3600 <= Z.of_N dt ->
  fst (fetch env' (get_id (nanoid8 env))
         (elapse dt (snd (fetch env (post_shorten (Some body)) w))))
  = inr url_not_found.
Proof.
  intros Hv Hurl Hne Hlen Hc Hsrv _ Hok Hdt.
  pose proof (accepted_accepts fetch env w body originalUrl c srv
                Hv Hurl Hne Hc Hsrv Hok) as Hacc.
  rewrite (versions_get fetch env' (nanoid8 env) Hv Hlen).
  apply (resolve_after_expiry fetch env w body originalUrl c srv); assumption.
Qed.

Lemma shorten_then_expired_witness :
  fst (V1.fetch env0 (get_id (nanoid8 env0))
         (elapse 3600 (snd (V1.fetch env0 (post_shorten (Some body0)) world0))))
  = inr url_not_found.
Proof.
  apply (shorten_then_expired V1.fetch env0 env0 world0 body0
           (js "https://youtube.com") client2 fresh 3600%N);
    solve [ left; reflexivity | reflexivity | discriminate
          | vm_compute; reflexivity | vm_compute; discriminate ].
Defined.

(** X16. In the second version a DELETE of an identifier whose POST
    /shorten was answered with the short URL is answered "Short URL deleted
    successfully" while the ttl that was sent has not run out and 404 "Short
    URL not found" once it has. *)
Theorem shorten_then_delete (env env' : Env) (w : World) (body : Body)
  (originalUrl : jsstring) (c : Client) (srv : Server) (dt : N) :
  url body = Some originalUrl -> originalUrl <> [] ->
  length (nanoid8 env) = 8%nat ->
  getRedisClient (redisClients w) (nanoid8 env) = Some c ->
  serving w c = Some srv ->
  fst (V2.fetch env (post_shorten (Some body)) w)
  = inr (short_url env (nanoid8 env)) ->
  fst (V2.fetch env' (delete_id (nanoid8 env))
         (elapse dt (snd (V2.fetch env (post_shorten (Some body)) w))))
  = inr (if Z.of_N dt <? or_default (ttl body) 3600
         then short_url_deleted else short_url_not_found).
Proof.
  intros Hurl Hne Hlen Hc Hsrv Hok.
  assert (Hv : In V2.fetch versions) by (right; left; reflexivity).
  pose proof (accepted_accepts V2.fetch env w body originalUrl c srv
                Hv Hurl Hne Hc Hsrv Hok) as Hex.
  rewrite V2_fetch_delete by (intros Hnil; rewrite Hnil in Hlen; discriminate).
  rewrite (remove_run _ c _
             (created_client V2.fetch env w body originalUrl c srv
                Hv Hurl Hne Hc Hsrv Hex dt)).
  cbv zeta.
  rewrite (created_serving V2.fetch env w body originalUrl c srv
             Hv Hurl Hne Hc Hsrv Hex dt).
  unfold peek. cbn [db]. rewrite lookup_insert_eq.
  rewrite (created_world V2.fetch env w body originalUrl c srv
             Hv Hurl Hne Hc Hsrv Hex).
  unfold live. cbn [set_at EX now elapse with_server with_wire].
  replace (now w + Z.of_N dt <? now w + or_default (ttl body) 3600)
    with (Z.of_N dt <? or_default (ttl body) 3600)
    by (destruct (Z.ltb_spec (Z.of_N dt) (or_default (ttl body) 3600));
        symmetry; [apply Z.ltb_lt | apply Z.ltb_ge]; lia).
  destruct (Z.of_N dt <? or_default (ttl body) 3600); reflexivity.
Qed.

Lemma shorten_then_delete_witness :
  fst (V2.fetch env0 (delete_id (nanoid8 env0))
         (elapse 10 (snd (V2.fetch env0 (post_shorten (Some body_minute)) world0))))
  = inr (if 10 <? 60 then short_url_deleted else short_url_not_found).
Proof.
  apply (shorten_then_delete env0 env0 world0 body_minute
           (js "https://x.com") client2 fresh 10%N);
    solve [ reflexivity | discriminate | vm_compute; reflexivity ].
Defined.

(** ** Requests about other identifiers *)

Lemma effect_now (env : Env) (req : Request) (w w' : World) :
  effect env req w w' -> now w' = now w.
Proof. destruct 1; reflexivity. Qed.

(** One request about another identifier leaves an entry in place. *)
Lemma effect_undisturbed (env : Env) (req : Request) (w w' : World)
  (c : Client) (srv : Server) (key : jsstring) (e : Entry) :
  effect env req w w' -> subject env req <> key ->
  serving w c = Some srv -> db srv !! key = Some e ->
  exists srv' : Server, serving w' c = Some srv' /\ db srv' !! key = Some e.
Proof.
  destruct 1 as [|c0 cmd|c0 srv0 e0 cmd Hpost _ Hsrv0 _|c0 srv0 cmd Hdel _ Hsrv0];
    intros Hsubject Hsrv Hkey; [eauto | eauto | |].
  - unfold subject in Hsubject. rewrite Hpost in Hsubject.
    destruct (decide (address c0 = address c)) as [Heq | Hne].
    + rewrite (serving_same_address w c c0 Heq), Hsrv in Hsrv0.
      injection Hsrv0 as <-.
      eexists. split.
      * rewrite <- (serving_same_address _ c c0 Heq).
        apply (serving_with_server _ c0 srv);
          [rewrite serving_with_wire, (serving_same_address w c c0 Heq) | ];
          [exact Hsrv | reflexivity].
      * cbn [db]. rewrite lookup_insert_ne by exact Hsubject. exact Hkey.
    + exists srv. split; [|exact Hkey].
      rewrite serving_other_server by exact Hne. exact Hsrv.
  - unfold subject in Hsubject. rewrite Hdel in Hsubject.
    destruct (decide (address c0 = address c)) as [Heq | Hne].
    + rewrite (serving_same_address w c c0 Heq), Hsrv in Hsrv0.
      injection Hsrv0 as <-.
      eexists. split.
      * rewrite <- (serving_same_address _ c c0 Heq).
        apply (serving_with_server _ c0 srv);
          [rewrite serving_with_wire, (serving_same_address w c c0 Heq) | ];
          [exact Hsrv | reflexivity].
      * cbn [db]. rewrite lookup_delete_ne by exact Hsubject. exact Hkey.
    + exists srv. split; [|exact Hkey].
      rewrite serving_other_server by exact Hne. exact Hsrv.
Qed.

Lemma play_undisturbed (fetch : Env -> Request -> M Response)
  (script : list (N * Env * Request)) (w : World)
  (c : Client) (srv : Server) (key : jsstring) (e : Entry) :
  In fetch versions ->
  Forall (fun step => subject (snd (fst step)) (snd step) <> key) script ->
  serving w c = Some srv -> db srv !! key = Some e ->
  now (play fetch script w) = now w + duration script /\
  exists srv' : Server,
    serving (play fetch script w) c = Some srv' /\ db srv' !! key = Some e.
Proof.
  intros Hv Hscript. revert w srv.
  induction Hscript as [|[[dt env] req] script Hstep _ IH];
    intros w srv Hsrv Hkey; cbn [play duration foldr fst snd].
  - split; [lia | eauto].
  - pose proof (fetch_effect fetch env req (elapse dt w) Hv) as Heff.
    destruct (effect_undisturbed env req _ _ c srv key e Heff Hstep)
      as (srv1 & Hsrv1 & Hkey1); [by rewrite serving_elapse | exact Hkey |].
    destruct (IH _ srv1 Hsrv1 Hkey1) as (Hnow & srv' & Hsrv' & Hkey').
    split; [|eauto].
    rewrite Hnow, (effect_now _ _ _ _ Heff). fold (duration script).
    cbn [now elapse]. lia.
Qed.

(** X17. Requests about other identifiers do not disturb a mapping: after
    a POST /shorten that was answered with the short URL, whatever history
    of requests follows, served or failed, none of them about the generated
    identifier and together taking less than the ttl that was sent, the
    lookup of that identifier is still answered with the 302 that
    [Response.redirect] builds from the posted url. *)
Theorem shorten_survives_other_requests (fetch : Env -> Request -> M Response)
  (env : Env) (w : World) (body : Body) (originalUrl : jsstring)
  (c : Client) (srv : Server) (script : list (N * Env * Request)) :
  In fetch versions ->
  url body = Some originalUrl -> originalUrl <> [] ->
  getRedisClient (redisClients w) (nanoid8 env) = Some c ->
  serving w c = Some srv ->
  fst (fetch env (post_shorten (Some body)) w)
  = inr (short_url env (nanoid8 env)) ->
  Forall (fun step => subject (snd (fst step)) (snd step) <> nanoid8 env) script ->
  duration script < or_default (ttl body) 3600 ->
  exists r : Response,
    fst (resolve (nanoid8 env)
           (play fetch script (snd (fetch env (post_shorten (Some body)) w))))
    = inr r /\
    status r = 302 /\
    forall href : jsstring -> jsstring,
      location_header href r = Some (href originalUrl).
Proof.
  intros Hv Hurl Hne Hc Hsrv Hok Hscript Hshort.
  pose proof (accepted_accepts fetch env w body originalUrl c srv
                Hv Hurl Hne Hc Hsrv Hok) as Hex.
  exists (redirect originalUrl). split; [|split; reflexivity].
  set (entry := {| value := originalUrl; EX := or_default (ttl body) 3600;
                   set_at := now w |}).
  set (created := snd (fetch env (post_shorten (Some body)) w)).
  pose proof (created_serving fetch env w body originalUrl c srv
                Hv Hurl Hne Hc Hsrv Hex 0%N) as Hsrv0.
  rewrite serving_elapse in Hsrv0. fold created in Hsrv0.
  destruct (play_undisturbed fetch script created c _ (nanoid8 env) entry
              Hv Hscript Hsrv0)
    as (Hnow & srv' & Hsrv' & Hkey'); [apply lookup_insert_eq|].
  assert (Hc' : getRedisClient (redisClients (play fetch script created))
                  (nanoid8 env) = Some c).
  { rewrite (play_redisClients fetch script created Hv).
    apply (created_client fetch env w body originalUrl c srv
             Hv Hurl Hne Hc Hsrv Hex 0%N). }
  rewrite (resolve_run _ c _ Hc'). cbv zeta. rewrite Hsrv'.
  unfold peek. rewrite Hkey'.
  assert (Hlive : live (now (play fetch script created)) entry = true).
  { rewrite Hnow. unfold created.
    rewrite (created_world fetch env w body originalUrl c srv
               Hv Hurl Hne Hc Hsrv Hex).
    unfold live, entry. cbn. apply Z.ltb_lt. lia. }
  rewrite Hlive. cbn [fmap option_fmap option_map entry value].
  destruct originalUrl as [|u us]; [done | reflexivity].
Qed.

Lemma shorten_survives_other_requests_witness :
  exists r : Response,
    fst (resolve (nanoid8 env0)
           (play V2.fetch
              [(60%N, env0, delete_id (js "8RXGtS1V"));
               (60%N, {| PORT := 3000; nanoid8 := js "8RXGtS1V" |},
                post_shorten (Some body_default))]
              (snd (V2.fetch env0 (post_shorten (Some body0)) world0))))
    = inr r /\
    status r = 302 /\
    forall href : jsstring -> jsstring,
      location_header href r = Some (href (js "https://youtube.com")).
Proof.
  apply (shorten_survives_other_requests V2.fetch env0 world0 body0
           (js "https://youtube.com") client2 fresh).
  - right; left; reflexivity.
  - reflexivity.
  - discriminate.
  - reflexivity.
  - vm_compute; reflexivity.
  - vm_compute; reflexivity.
  - repeat constructor; discriminate.
  - reflexivity.
Defined.

(** ** Requests that fail *)

(** X18. A request that does not end in a response of status 200 has
    changed no server: the 302, 400 and 404 answers and the exceptions all
    leave every entry as it was. *)
Theorem fetch_changes_only_with_200 (fetch : Env -> Request -> M Response)
  (env : Env) (req : Request) (w : World) :
  In fetch versions ->
  status_of (fst (fetch env req w)) <> inr 200 ->
  servers (snd (fetch env req w)) = servers w.
Proof.
  intros Hv.
  apply (fetch_cases fetch env req w
           (fun r => status_of (fst r) <> inr 200 -> servers (snd r) = servers w)
           Hv).
  - reflexivity.
  - reflexivity.
  - intros _ _ required invalid _ _.
    unfold shorten, try_catch, bind, req_json.
    destruct (json req) as [body|]; cbn [ret throw fst snd]; [|reflexivity].
    destruct (url body) as [[|u us]|]; cbn [ret fst snd]; try reflexivity.
    unfold the_client.
    destruct (getRedisClient (redisClients w) (nanoid8 env)) as [c|];
      cbn [on_client throw ret fst snd]; [|reflexivity].
    unfold client_set. destruct (serving w c);
      [|unfold failure; destruct (connected w c); reflexivity].
    destruct (accepts (now w) (or_default (ttl body) 3600)); cbn; [|reflexivity].
    intros H. by destruct H.
  - intros Hget _ _.
    destruct (resolve_effect env req w);
      [reflexivity | reflexivity | congruence | congruence].
  - intros _ _. unfold remove, bind, the_client.
    destruct (getRedisClient (redisClients w) (shortId_of req)) as [c|];
      cbn [on_client throw fst snd]; [|reflexivity].
    unfold client_del. destruct (serving w c) as [srv|]; [|reflexivity].
    destruct (peek (now w) srv (shortId_of req)); cbn; [|reflexivity].
    intros H. by destruct H.
Qed.

Lemma fetch_changes_only_with_200_witness :
  servers (snd (V2.fetch env0 (post_shorten (Some body_negative)) world1))
  = servers world1.
Proof.
  apply (fetch_changes_only_with_200 V2.fetch env0
           (post_shorten (Some body_negative)) world1).
  - right; left; reflexivity.
  - vm_compute. discriminate.
Defined.

(** ** The 400 of a write that fails *)

(** X19. POST /shorten with a non-empty url is answered 400 "Invalid
    request", the answer to a body that cannot be read, whenever the
    selected server is connected and the write fails: because the server
    answers with an error reply, or because it refuses the expiry, which it
    does for a negative ttl and for one beyond its bound such as 2^63-1.
    One SET has been sent and no server has changed. *)
Theorem invalid_request_when (env : Env) (w : World) (body : Body)
  (originalUrl : jsstring) (c : Client) :
  url body = Some originalUrl -> originalUrl <> [] ->
  getRedisClient (redisClients w) (nanoid8 env) = Some c ->
  is_Some (connected w c) ->
  address c ∈ troubled w \/
  accepts (now w) (or_default (ttl body) 3600) = false ->
  V1.fetch env (post_shorten (Some body)) w
  = (inr V1.invalid_request,
     with_wire w c (SET (nanoid8 env) originalUrl (or_default (ttl body) 3600))) /\
  V2.fetch env (post_shorten (Some body)) w
  = (inr V2.invalid_request,
     with_wire w c (SET (nanoid8 env) originalUrl (or_default (ttl body) 3600))) /\
  fst (V1.fetch env (post_shorten None) w) = inr V1.invalid_request /\
  fst (V2.fetch env (post_shorten None) w) = inr V2.invalid_request.
Proof.
  intros Hurl Hne Hc [srv Hcon] Hwhy.
  rewrite !V1_fetch_shorten, !V2_fetch_shorten.
  rewrite (shorten_no_body V1.url_required V1.invalid_request env
             (post_shorten None) w eq_refl).
  rewrite (shorten_no_body V2.url_required V2.invalid_request env
             (post_shorten None) w eq_refl).
  rewrite !(shorten_run _ _ env (post_shorten (Some body)) body originalUrl c w)
    by done.
  cbv zeta. unfold serving. rewrite Hcon.
  destruct Hwhy as [Htroubled | Hrefused].
  - rewrite bool_decide_eq_true_2 by exact Htroubled. done.
  - case_bool_decide; [done|]. rewrite Hrefused. done.
Qed.

Lemma invalid_request_when_witness :
  V1.fetch env0
    (post_shorten
       (Some {| url := Some (js "https://x.com"); ttl := Some (2 ^ 63 - 1) |}))
    world0
  = (inr V1.invalid_request,
     with_wire world0 client2
       (SET (nanoid8 env0) (js "https://x.com")
          (or_default (Some (2 ^ 63 - 1)) 3600))) /\
  V2.fetch env0 (post_shorten (Some body0)) loading
  = (inr V2.invalid_request,
     with_wire loading client2
       (SET (nanoid8 env0) (js "https://youtube.com") 3600)).
Proof.
  split.
  - refine (proj1 (invalid_request_when env0 world0
                     {| url := Some (js "https://x.com");
                        ttl := Some (2 ^ 63 - 1) |}
                     (js "https://x.com") client2 _ _ _ _ _));
      solve [ reflexivity | discriminate | vm_compute; eauto
            | right; vm_compute; reflexivity ].
  - refine (proj1 (proj2 (invalid_request_when env0 loading body0
                            (js "https://youtube.com") client2 _ _ _ _ _)));
      solve [ reflexivity | discriminate | vm_compute; eauto
            | left; apply elem_of_singleton; reflexivity ].
Defined.

(** ** Lookups in a world without empty values *)

(** X21. Where no server holds an empty value, as in every world the
    service has filled by itself, and the selected server carries out its
    commands, GET is answered 404 "URL not found" exactly when that server
    has no live entry under the key; when it has one, GET is answered with
    the 302 that [Response.redirect] builds from the value of that entry. *)
Theorem resolve_exact (w : World) (shortId : jsstring) (c : Client)
  (srv : Server) :
  no_empty_value w ->
  getRedisClient (redisClients w) shortId = Some c ->
  serving w c = Some srv ->
  (fst (resolve shortId w) = inr url_not_found
   <-> peek (now w) srv shortId = None) /\
  (forall e : Entry,
     peek (now w) srv shortId = Some e ->
     exists r : Response,
       fst (resolve shortId w) = inr r /\
       status r = 302 /\
       forall href : jsstring -> jsstring,
         location_header href r = Some (href (value e))).
Proof.
  intros Hinv Hc Hsrv. rewrite (resolve_run shortId c w Hc). cbv zeta.
  rewrite Hsrv.
  destruct (peek (now w) srv shortId) as [e|] eqn:Hpeek;
    cbn [fmap option_fmap option_map].
  - assert (Hval : value e <> []).
    { apply (Hinv c shortId e). rewrite (stored_serving w c srv _ Hsrv).
      unfold peek in Hpeek. destruct (db srv !! shortId) as [e'|]; [|done].
      destruct (live (now w) e'); [congruence | done]. }
    destruct (value e) as [|u us] eqn:Hv; [done|]. cbn [fst]. split.
    + split; discriminate.
    + intros e' [= <-]. exists (redirect (u :: us)).
      rewrite Hv. split; [reflexivity|]. split; reflexivity.
  - cbn [fst]. split; [done|]. intros e' [=].
Qed.

Lemma no_empty_value_world1 : no_empty_value world1.
Proof.
  assert (H : world1 = snd (V2.fetch env0 (post_shorten (Some body0)) world0))
    by (rewrite world1_after_shorten; reflexivity).
  rewrite H.
  apply (effect_no_empty_value env0 (post_shorten (Some body0)) world0);
    [apply fetch_effect; right; left; reflexivity | exact no_empty_value_world0].
Qed.

Lemma resolve_exact_witness :
  exists r : Response,
    fst (resolve (nanoid8 env0) world1) = inr r /\
    status r = 302 /\
    forall href : jsstring -> jsstring,
      location_header href r = Some (href (js "https://youtube.com")).
Proof.
  pose proof (resolve_exact world1 (nanoid8 env0) client2
                {| reachable := true;
                   db := <[nanoid8 env0 :=
                             {| value := js "https://youtube.com";
                                EX := 3600; set_at := 0 |}]> ∅ |}
                no_empty_value_world1 ltac:(reflexivity)
                ltac:(vm_compute; reflexivity))
    as [_ Hsome].
  apply (Hsome {| value := js "https://youtube.com"; EX := 3600; set_at := 0 |}).
  vm_compute. reflexivity.
Defined.

(** ** The server against its own description *)

(** X22. In the second version every response to the GET or the DELETE of a
    generated identifier has a status that [openApiSpec] lists for that
    operation: 302 or 404 for the GET, 200 or 404 for the DELETE. *)
Theorem V2_answers_as_described (env : Env) (w : World) (shortId : jsstring)
  (r : Response) :
  length shortId = 8%nat ->
  (fst (V2.fetch env (get_id shortId) w) = inr r ->
   status r ∈ openApiSpec_responses get_shortId_op) /\
  (fst (V2.fetch env (delete_id shortId) w) = inr r ->
   status r ∈ openApiSpec_responses delete_shortId_op).
Proof.
  intros Hlen.
  assert (Hv : In V2.fetch versions) by (right; left; reflexivity).
  rewrite (versions_get V2.fetch env shortId Hv Hlen).
  rewrite V2_fetch_delete by (intros ->; discriminate).
  unfold resolve, remove, bind, the_client.
  destruct (getRedisClient (redisClients w) shortId) as [c|];
    cbn [on_client throw fst]; [|split; discriminate].
  unfold client_get, client_del.
  destruct (serving w c) as [srv|]; [|split; discriminate].
  split.
  - destruct (value <$> peek (now w) srv shortId) as [[|u us]|];
      intros [= <-]; cbn; apply list_elem_of_In; simpl; auto.
  - destruct (peek (now w) srv shortId); intros [= <-]; cbn;
      apply list_elem_of_In; simpl; auto.
Qed.

Lemma V2_answers_as_described_witness :
  (fst (V2.fetch env0 (get_id (nanoid8 env0)) world1)
   = inr (redirect (js "https://youtube.com")) ->
   status (redirect (js "https://youtube.com"))
   ∈ openApiSpec_responses get_shortId_op) /\
  (fst (V2.fetch env0 (delete_id (nanoid8 env0)) world1)
   = inr (redirect (js "https://youtube.com")) ->
   status (redirect (js "https://youtube.com"))
   ∈ openApiSpec_responses delete_shortId_op).
Proof.
  apply (V2_answers_as_described env0 world1 (nanoid8 env0)
           (redirect (js "https://youtube.com"))).
  reflexivity.
Defined.

(** The description lists 200 alone for POST /shorten, which answers 400
    as well. *)
Example V2_shorten_400_is_not_described :
  status_of (fst (V2.fetch env0 (post_shorten None) world0)) = inr 400 /\
  400 ∉ openApiSpec_responses post_shorten_op.
Proof.
  split; [reflexivity|].
  intros H. apply list_elem_of_In in H. simpl in H.
  destruct H as [H | []]. discriminate.
Qed.

(** Without a connection to the selected server no request about the
    identifier settles, the POST no more than the others. *)
Example nothing_settles_without_connection :
  fst (V2.fetch env0 (post_shorten (Some body0)) outage) = inl Unsettled /\
  fst (V2.fetch env0 (get_id (nanoid8 env0)) outage) = inl Unsettled /\
  fst (V2.fetch env0 (delete_id (nanoid8 env0)) outage) = inl Unsettled.
Proof. repeat split; vm_compute; reflexivity. Qed.
